(** * System builder of the flecs C++ API, and the scheduling core it configures

    The first part embeds [system_builder_i]
    (include/flecs/addons/cpp/mixins/system/builder_i.hpp): the fluent
    configuration surface that fills an [ecs_system_desc_t] and records
    ordering relations in the world through [ecs_add_id].

    The second part models the scheduling core that consumes those
    descriptors (dependency graph, pipeline planner, per-tick executor).
    None of that core is part of the two header files; every definition
    of the second part is marked as modelled from the specification. *)

From stdpp Require Import gmap list.
From Stdlib Require Import ZArith SpecFloat Lia.

Local Open Scope Z_scope.

(** [entity_t] is a 64-bit handle; [0] is the null handle.  The builder
    only compares handles with zero and passes them on, so no wrap-around
    arithmetic is involved. *)
Abbreviation entity_t := Z (only parsing).

(** ** The C API used by the builder

    The builder header includes neither the declaration of
    [ecs_system_desc_t] nor those of [ecs_add_id], [ecs_dependson] and
    [ecs_after].  The types of the descriptor fields and the three
    operations are therefore parameters of the embedding. *)
Class FlecsApi : Type := {
  world_t : Type;                 (* pointee of flecs::world_t* *)
  ecs_id_t : Type;                (* (relation, target) pair ids *)
  ecs_ftime_t : Type;             (* floating point time *)
  ecs_iter_action_t : Type;       (* callback pointer *)
  ctx_ptr_t : Type;               (* void* *)
  query_desc_t : Type;            (* desc->query, owned by query_builder_i *)
  other_fields_t : Type;          (* descriptor fields the builder never names *)
  ecs_add_id : world_t -> entity_t -> ecs_id_t -> world_t;
  ecs_dependson : entity_t -> ecs_id_t;
  ecs_after : entity_t -> ecs_id_t
}.

(** ** The system descriptor *)
Module Desc.
Section WithApi.
Context `{Api : FlecsApi}.

(** The fields of [ecs_system_desc_t] that [system_builder_i] reads or
    writes, [query] (handed to the base class) and the remaining fields. *)
Record ecs_system_desc_t : Type := mk_desc {
  entity : entity_t;
  query : query_desc_t;
  run : ecs_iter_action_t;
  ctx : ctx_ptr_t;
  interval : ecs_ftime_t;
  rate : Z;                       (* int32_t *)
  tick_source : entity_t;
  multi_threaded : bool;
  no_readonly : bool;
  other_fields : other_fields_t
}.

(** *** Naming the descriptor fields

    To say "every other field is unchanged" once and for all, the fields
    are enumerated and read through one dependent accessor. *)
Inductive desc_field : Set :=
  | F_entity | F_query | F_run | F_ctx | F_interval | F_rate
  | F_tick_source | F_multi_threaded | F_no_readonly | F_other.

Definition field_t (f : desc_field) : Type :=
  match f with
  | F_entity => Z
  | F_query => query_desc_t
  | F_run => ecs_iter_action_t
  | F_ctx => ctx_ptr_t
  | F_interval => ecs_ftime_t
  | F_rate => Z
  | F_tick_source => Z
  | F_multi_threaded => bool
  | F_no_readonly => bool
  | F_other => other_fields_t
  end.

Definition desc_get (f : desc_field) : ecs_system_desc_t -> field_t f :=
  match f with
  | F_entity => entity
  | F_query => query
  | F_run => run
  | F_ctx => ctx
  | F_interval => interval
  | F_rate => rate
  | F_tick_source => tick_source
  | F_multi_threaded => multi_threaded
  | F_no_readonly => no_readonly
  | F_other => other_fields
  end.

End WithApi.
End Desc.

(** ** The builder interface [system_builder_i] *)
Module Builder.
Section WithApi.
Context `{Api : FlecsApi}.

Abbreviation ecs_system_desc_t := Desc.ecs_system_desc_t.

(** A builder is the pair of the objects it points to: the descriptor
    behind [m_desc] and the world behind [world_v()].  Every method returns
    [*this]; in state-passing style the returned builder is the receiver
    after the update, so a method is a function from builders to builders
    and a chain [b.after(x).rate(r)] is [rate r (after x b)]. *)
Record system_builder_i : Type := mk_builder {
  m_desc : ecs_system_desc_t;
  world_v : world_t
}.

Definition with_world (w : world_t) (b : system_builder_i) : system_builder_i :=
  {| m_desc := m_desc b; world_v := w |}.

Definition with_desc (d : ecs_system_desc_t) (b : system_builder_i) : system_builder_i :=
  {| m_desc := d; world_v := world_v b |}.

(** [Base& depends_on(entity_t other)] *)
Definition depends_on (other : entity_t) (b : system_builder_i) : system_builder_i :=
  if other =? 0 then b
  else with_world
         (ecs_add_id (world_v b) (Desc.entity (m_desc b)) (ecs_dependson other)) b.

(** [Base& after(entity_t other)] *)
Definition after (other : entity_t) (b : system_builder_i) : system_builder_i :=
  if other =? 0 then b
  else with_world
         (ecs_add_id (world_v b) (Desc.entity (m_desc b)) (ecs_after other)) b.

(** [Base& before(entity_t other)] *)
Definition before (other : entity_t) (b : system_builder_i) : system_builder_i :=
  if other =? 0 then b
  else with_world
         (ecs_add_id (world_v b) other (ecs_after (Desc.entity (m_desc b)))) b.

(** [Base& multi_threaded(bool value = true)]; the default argument is
    supplied by the caller. *)
Definition multi_threaded (value : bool) (b : system_builder_i) : system_builder_i :=
  let d := m_desc b in
  with_desc
    (Desc.mk_desc (Desc.entity d) (Desc.query d) (Desc.run d) (Desc.ctx d)
       (Desc.interval d) (Desc.rate d) (Desc.tick_source d)
       value (Desc.no_readonly d) (Desc.other_fields d)) b.

(** [Base& no_readonly(bool value = true)] *)
Definition no_readonly (value : bool) (b : system_builder_i) : system_builder_i :=
  let d := m_desc b in
  with_desc
    (Desc.mk_desc (Desc.entity d) (Desc.query d) (Desc.run d) (Desc.ctx d)
       (Desc.interval d) (Desc.rate d) (Desc.tick_source d)
       (Desc.multi_threaded d) value (Desc.other_fields d)) b.

(** [Base& interval(ecs_ftime_t interval)] *)
Definition interval (value : ecs_ftime_t) (b : system_builder_i) : system_builder_i :=
  let d := m_desc b in
  with_desc
    (Desc.mk_desc (Desc.entity d) (Desc.query d) (Desc.run d) (Desc.ctx d)
       value (Desc.rate d) (Desc.tick_source d)
       (Desc.multi_threaded d) (Desc.no_readonly d) (Desc.other_fields d)) b.

(** [Base& rate(const entity_t tick_source, int32_t rate)], the overload
    with two arguments. *)
Definition rate_of (tick_source : entity_t) (rate : Z) (b : system_builder_i)
  : system_builder_i :=
  let d := m_desc b in
  with_desc
    (Desc.mk_desc (Desc.entity d) (Desc.query d) (Desc.run d) (Desc.ctx d)
       (Desc.interval d) rate tick_source
       (Desc.multi_threaded d) (Desc.no_readonly d) (Desc.other_fields d)) b.

(** [Base& rate(int32_t rate)] *)
Definition rate (rate : Z) (b : system_builder_i) : system_builder_i :=
  let d := m_desc b in
  with_desc
    (Desc.mk_desc (Desc.entity d) (Desc.query d) (Desc.run d) (Desc.ctx d)
       (Desc.interval d) rate (Desc.tick_source d)
       (Desc.multi_threaded d) (Desc.no_readonly d) (Desc.other_fields d)) b.

(** [Base& tick_source(flecs::entity_t tick_source)] *)
Definition tick_source (tick_source : entity_t) (b : system_builder_i)
  : system_builder_i :=
  let d := m_desc b in
  with_desc
    (Desc.mk_desc (Desc.entity d) (Desc.query d) (Desc.run d) (Desc.ctx d)
       (Desc.interval d) (Desc.rate d) tick_source
       (Desc.multi_threaded d) (Desc.no_readonly d) (Desc.other_fields d)) b.

(** [Base& ctx(void *ptr)] *)
Definition ctx (ptr : ctx_ptr_t) (b : system_builder_i) : system_builder_i :=
  let d := m_desc b in
  with_desc
    (Desc.mk_desc (Desc.entity d) (Desc.query d) (Desc.run d) ptr
       (Desc.interval d) (Desc.rate d) (Desc.tick_source d)
       (Desc.multi_threaded d) (Desc.no_readonly d) (Desc.other_fields d)) b.

(** [Base& run(ecs_iter_action_t action)] *)
Definition run (action : ecs_iter_action_t) (b : system_builder_i) : system_builder_i :=
  let d := m_desc b in
  with_desc
    (Desc.mk_desc (Desc.entity d) (Desc.query d) action (Desc.ctx d)
       (Desc.interval d) (Desc.rate d) (Desc.tick_source d)
       (Desc.multi_threaded d) (Desc.no_readonly d) (Desc.other_fields d)) b.

(** [frame fs b b']: going from [b] to [b'] the world is untouched and the
    descriptor differs at most in the fields listed in [fs]. *)
Definition frame (fs : list Desc.desc_field) (b b' : system_builder_i) : Prop :=
  world_v b' = world_v b /\
  forall f, ~ In f fs -> Desc.desc_get f (m_desc b') = Desc.desc_get f (m_desc b).

End WithApi.
End Builder.

(** ** Chains of builder calls

    The builder is used fluently: [b.rate(3).after(x).interval(0.5)...].
    A chain is a list of calls, applied from left to right. *)
Module Calls.
Import Builder.
Import Desc (desc_field(..)).

Section WithApi.
Context `{Api : FlecsApi}.

(** The template overloads [depends_on<Other>()], [after<Other>()] and
    [before<Other>()] resolve their type argument with
    [_::cpp_type<Other>::id(world_v())], which is declared outside these
    files.  The lookup is a parameter: given the type and the world it
    returns the world as the lookup leaves it (a first use may register
    the type) and the entity of the type. *)
Variable type_t : Type.
Variable cpp_type_id : type_t -> world_t -> world_t * entity_t.

(** [template <typename Other> Base& depends_on()] *)
Definition depends_on_type (Other : type_t) (b : system_builder_i) : system_builder_i :=
  let r := cpp_type_id Other (world_v b) in
  depends_on (snd r) (with_world (fst r) b).

(** [template <typename Other> Base& after()] *)
Definition after_type (Other : type_t) (b : system_builder_i) : system_builder_i :=
  let r := cpp_type_id Other (world_v b) in
  after (snd r) (with_world (fst r) b).

(** [template <typename Other> Base& before()] *)
Definition before_type (Other : type_t) (b : system_builder_i) : system_builder_i :=
  let r := cpp_type_id Other (world_v b) in
  before (snd r) (with_world (fst r) b).

(** One call on the builder: the public methods of [system_builder_i]. *)
Inductive call : Type :=
  | DependsOn (other : entity_t)
  | DependsOnType (Other : type_t)
  | After (other : entity_t)
  | AfterType (Other : type_t)
  | Before (other : entity_t)
  | BeforeType (Other : type_t)
  | MultiThreaded (value : bool)
  | NoReadonly (value : bool)
  | Interval (value : ecs_ftime_t)
  | RateOf (tick_source : entity_t) (rate : Z)
  | Rate (rate : Z)
  | TickSource (tick_source : entity_t)
  | Ctx (ptr : ctx_ptr_t)
  | Run (action : ecs_iter_action_t).

Definition apply_call (c : call) (b : system_builder_i) : system_builder_i :=
  match c with
  | DependsOn other => depends_on other b
  | DependsOnType Other => depends_on_type Other b
  | After other => after other b
  | AfterType Other => after_type Other b
  | Before other => before other b
  | BeforeType Other => before_type Other b
  | MultiThreaded value => multi_threaded value b
  | NoReadonly value => no_readonly value b
  | Interval value => interval value b
  | RateOf src r => rate_of src r b
  | Rate r => rate r b
  | TickSource src => tick_source src b
  | Ctx ptr => ctx ptr b
  | Run action => run action b
  end.

(** [b.c1(..).c2(..)...]: every method returns [*this], so the next call
    acts on the builder the previous one left. *)
Definition run_calls (cs : list call) (b : system_builder_i) : system_builder_i :=
  fold_left (fun acc c => apply_call c acc) cs b.

(** *** Reading a chain *)

(** The calls that declare an edge; the others are descriptor setters. *)
Definition is_edge (c : call) : bool :=
  match c with
  | DependsOn _ | DependsOnType _ | After _ | AfterType _
  | Before _ | BeforeType _ => true
  | _ => false
  end.

(** The edge declarations that pass the null handle. *)
Definition is_null_edge (c : call) : bool :=
  match c with
  | DependsOn other | After other | Before other => other =? 0
  | _ => false
  end.

(** The calls that take their argument through the type lookup. *)
Definition is_typed (c : call) : bool :=
  match c with
  | DependsOnType _ | AfterType _ | BeforeType _ => true
  | _ => false
  end.

(** The value a call stores in field [f], if it stores one there. *)
Definition writes_to (c : call) (f : desc_field) : option (Desc.field_t f) :=
  match f return option (Desc.field_t f) with
  | F_entity => None
  | F_query => None
  | F_other => None
  | F_run => match c with Run action => Some action | _ => None end
  | F_ctx => match c with Ctx ptr => Some ptr | _ => None end
  | F_interval => match c with Interval value => Some value | _ => None end
  | F_rate =>
      match c with
      | Rate r => Some r
      | RateOf _ r => Some r
      | _ => None
      end
  | F_tick_source =>
      match c with
      | TickSource src => Some src
      | RateOf src _ => Some src
      | _ => None
      end
  | F_multi_threaded => match c with MultiThreaded value => Some value | _ => None end
  | F_no_readonly => match c with NoReadonly value => Some value | _ => None end
  end.

(** The value the last call of the chain that stores into [f] stores. *)
Fixpoint last_write (f : desc_field) (cs : list call) : option (Desc.field_t f) :=
  match cs with
  | [] => None
  | c :: rest =>
      match last_write f rest with
      | Some v => Some v
      | None => writes_to c f
      end
  end.

Definition all_fields : list desc_field :=
  [F_entity; F_query; F_run; F_ctx; F_interval; F_rate; F_tick_source;
   F_multi_threaded; F_no_readonly; F_other].

Definition writes (c : call) (f : desc_field) : bool :=
  match writes_to c f with
  | Some _ => true
  | None => false
  end.

(** Two calls are separate when they store into no common field and at
    most one of them declares an edge. *)
Definition separate (c1 c2 : call) : bool :=
  forallb (fun f => negb (writes c1 f && writes c2 f)) all_fields
  && negb (is_edge c1 && is_edge c2).

(** The [ecs_add_id] requests of a chain of calls on the builder of
    entity [self], in call order: the target entity and the id.  Setters
    and null handles request nothing; the typed calls are left out, their
    id is only known once the lookup has run. *)
Definition request (self : entity_t) (c : call) : list (entity_t * ecs_id_t) :=
  match c with
  | DependsOn other => if other =? 0 then [] else [(self, ecs_dependson other)]
  | After other => if other =? 0 then [] else [(self, ecs_after other)]
  | Before other => if other =? 0 then [] else [(other, ecs_after self)]
  | _ => []
  end.

Definition requests (self : entity_t) (cs : list call) : list (entity_t * ecs_id_t) :=
  flat_map (request self) cs.

Definition add_all (w : world_t) (rs : list (entity_t * ecs_id_t)) : world_t :=
  fold_left (fun acc r => ecs_add_id acc (fst r) (snd r)) rs w.

End WithApi.
End Calls.

(** ** Durations

    Modelled from the spec: durations (interval, delta time, accumulated
    time) are floating-point.  The declaration of [ecs_ftime_t] is absent
    from the sources; a duration is an IEEE 754 binary float with
    round-to-nearest-even arithmetic, in single precision or, when the
    library is configured for it, in double precision. *)
Module Ftime.

(** Modelled from the spec: the floating-point format of [ecs_ftime_t]
    (absent declaration), the precision in bits and the exponent bound. *)
Record format : Set := mk_format { prec : Z; emax : Z }.

(** Modelled from the spec: single precision, the usual [ecs_ftime_t]. *)
Definition binary32 : format := mk_format 24 128.

(** Modelled from the spec: double precision, the other [ecs_ftime_t]. *)
Definition binary64 : format := mk_format 53 1024.

Abbreviation t := spec_float.

(** Modelled from the spec: the duration zero of the absent [ecs_ftime_t]. *)
Definition zero : t := S754_zero false.

(** Modelled from the spec: an integer as a duration of the absent
    [ecs_ftime_t], rounded to the format. *)
Definition of_Z (f : format) (n : Z) : t :=
  binary_normalize (prec f) (emax f) n 0 false.

(** Modelled from the spec: the duration a decimal figure such as 0.4
    ([decimal f 4 10]) denotes in the absent [ecs_ftime_t], the float of
    the format nearest to the fraction. *)
Definition decimal (f : format) (num den : Z) : t :=
  SFdiv (prec f) (emax f) (of_Z f num) (of_Z f den).

(** Modelled from the spec: rounded sum of two durations. *)
Definition add (f : format) (x y : t) : t := SFadd (prec f) (emax f) x y.

(** Modelled from the spec: rounded difference of two durations. *)
Definition sub (f : format) (x y : t) : t := SFsub (prec f) (emax f) x y.

(** Modelled from the spec: comparison of durations, [x <= y]. *)
Definition leb (x y : t) : bool := SFleb x y.

(** Modelled from the spec: comparison of durations, [x < y]. *)
Definition ltb (x y : t) : bool := SFltb x y.

(** Modelled from the spec: the rounded distance of two durations. *)
Definition dist (f : format) (x y : t) : t := SFabs (sub f x y).

End Ftime.
(** ** A concrete world: the table of (entity, id) pairs *)
Module Store.

(** Modelled from the spec: the relation kinds behind the absent macros
    [ecs_dependson] and [ecs_after].  An id is the pair of a relation and
    its target entity ("after X", "depends_on X"). *)
Inductive ecs_rel : Set := EcsDependsOn | EcsAfter.

#[export] Instance ecs_rel_eq_dec : EqDecision ecs_rel.
Proof. solve_decision. Defined.

#[export] Instance ecs_rel_countable : Countable ecs_rel :=
  inj_countable'
    (fun r => match r with EcsDependsOn => false | EcsAfter => true end)
    (fun b : bool => if b then EcsAfter else EcsDependsOn)
    (fun r => match r with EcsDependsOn => eq_refl | EcsAfter => eq_refl end).

Abbreviation id := (ecs_rel * Z)%type.
Abbreviation world := (gset (Z * (ecs_rel * Z))).

(** Modelled from the spec: [ecs_add_id], absent from the sources.  The
    world keeps, per entity, the set of ids added to it; explicit edges are
    "sets of predecessor entities", so adding an id twice leaves one. *)
Definition add_id (w : world) (e : Z) (i : id) : world := {[ (e, i) ]} ∪ w.

(** Modelled from the spec: the test that an entity carries an id, as the
    absent graph builder needs it to read the explicit edges. *)
Definition has_id (w : world) (e : Z) (i : id) : bool := bool_decide ((e, i) ∈ w).

(** Modelled from the spec: the iteration context handed to a callback
    (its declaration is absent from the sources). *)
Record iter_ctx : Type := mk_iter {
  it_system : Z;
  it_delta_time : Ftime.t;
  it_frame : Z
}.

(** Modelled from the spec: the query capability's declared read/write
    footprint (component ids); the query descriptor is absent from the
    sources. *)
Record footprint : Type := mk_footprint {
  reads : list Z;
  writes : list Z
}.

(** The API instance the scheduling core works with: times are
    floating-point durations, a callback maps its iteration context to
    [true] (done) or [false] (it reported an error). *)
#[export] Instance api : FlecsApi := {|
  world_t := world;
  ecs_id_t := id;
  ecs_ftime_t := Ftime.t;
  ecs_iter_action_t := iter_ctx -> bool;
  ctx_ptr_t := Z;
  query_desc_t := footprint;
  other_fields_t := unit;
  ecs_add_id := add_id;
  ecs_dependson := fun e => (EcsDependsOn, e);
  ecs_after := fun e => (EcsAfter, e)
|}.

End Store.

(** ** The scheduling core

    The dependency graph builder, the pipeline planner and the executor
    live outside the two header files.  They are modelled here from the
    specification, over the descriptors the builder fills and the world it
    adds relations to. *)
Module Core.
Import Desc Store.

Abbreviation desc := (@ecs_system_desc_t Store.api).

(** Modelled from the spec: the input of plan compilation, which is absent
    from the sources like the rest of the scheduling core: the registered
    descriptors in registration order, the world holding the explicit
    edges, and the external phase ordering lifted to systems
    ([phase_order a b] when the phase of [a] precedes the phase of [b]). *)
Record pipeline : Type := mk_pipeline {
  systems : list desc;
  world : Store.world;
  phase_order : Z -> Z -> bool
}.

(** Modelled from the spec: the scheduler instance (absent from the
    sources) with its timer state (section 5).  Besides the pipeline it
    owns the floating-point format of its durations, the clock, the
    pipeline's own per-tick counter, the interval accumulators, the
    per-system counters that advance on [Ran] and that other systems can
    use as tick source, and for each rated system the count of its tick
    source at which it last ran. *)
Record scheduler : Type := mk_scheduler {
  pipe : pipeline;
  fmt : Ftime.format;
  clock : Ftime.t;
  frame : Z;
  accum : gmap Z Ftime.t;
  ticks : gmap Z Z;
  rated_at : gmap Z Z
}.

(** Modelled from the spec: the errors of the absent plan compilation
    (4.1, 4.2 and 7); [CyclicDependency] identifies the participating
    systems. *)
Inductive plan_error : Type :=
  | CyclicDependency (participants : list Z)
  | UnschedulableConflict (system : Z).

(** Modelled from the spec: the outcome of an operation of the absent
    core, a value or a plan error surfaced to the caller. *)
Inductive result (A : Type) : Type :=
  | Ok (a : A)
  | Err (e : plan_error).
Arguments Ok {A} a.
Arguments Err {A} e.

(** *** 4.1 Dependency graph builder *)

(** Modelled from the spec: the absent graph builder's "must-run-before"
    edge from [a] to [b], derived from phase order and from the explicit relations.  [b] carrying
    "after a" or "depends_on a" makes [a] a predecessor of [b]; a [before]
    declaration has already been stored as an "after" id on its target. *)
Definition edge (p : pipeline) (a b : Z) : bool :=
  has_id (world p) b (EcsAfter, a)
  || has_id (world p) b (EcsDependsOn, a)
  || phase_order p a b.

(** Modelled from the spec: cycle detection of the absent graph builder.
    [reaches p n a b] holds when a path of at most [n] edges through
    registered systems leads from [a] to [b]. *)
Fixpoint reaches (p : pipeline) (fuel : nat) (a b : Z) : bool :=
  match fuel with
  | O => false
  | S f =>
      existsb (fun u => edge p a (entity u)
                        && ((entity u =? b) || reaches p f (entity u) b))
              (systems p)
  end.

(** Modelled from the spec: the absent graph builder's test that a system
    participates in a cycle. *)
Definition on_cycle (p : pipeline) (d : desc) : bool :=
  reaches p (length (systems p)) (entity d) (entity d).

(** Modelled from the spec: the systems a [CyclicDependency] error of the
    absent graph builder identifies, in registration order. *)
Definition cycle_participants (p : pipeline) : list Z :=
  map entity (filter (fun d => on_cycle p d = true) (systems p)).

(** *** 4.2 Pipeline planner *)

(** Modelled from the spec: readiness in the absent planner.  A system is
    ready when no system that still
    waits to be placed (itself included) must run before it. *)
Definition ready (p : pipeline) (remaining : list desc) (d : desc) : bool :=
  forallb (fun x => negb (edge p (entity x) (entity d))) remaining.

(** Modelled from the spec: the absent planner's tie-break by
    registration order.  The waiting
    systems are kept in registration order and the first ready one is
    placed next. *)
Definition first_ready (p : pipeline) (remaining : list desc) : option desc :=
  List.find (ready p remaining) remaining.

(** Modelled from the spec: the absent planner takes a placed system out
    of the waiting ones, by identity. *)
Definition drop (d : desc) (l : list desc) : list desc :=
  filter (fun x => entity x <> entity d) l.

(** Modelled from the spec: the systems the absent planner has not placed
    yet, in registration order. *)
Definition unplaced (p : pipeline) (placed : list desc) : list desc :=
  filter (fun x => entity x ∉ map entity placed) (systems p).

(** Modelled from the spec: the absent planner's deterministic
    topological ordering, which places the first ready system until none
    waits.  [None] when no waiting system is ready, which is the sign of a
    cycle. *)
Fixpoint linearize (p : pipeline) (fuel : nat) (remaining : list desc)
  : option (list desc) :=
  match remaining with
  | [] => Some []
  | _ :: _ =>
      match fuel with
      | O => None
      | S f =>
          match first_ready p remaining with
          | None => None
          | Some d =>
              match linearize p f (drop d remaining) with
              | None => None
              | Some rest => Some (d :: rest)
              end
          end
      end
  end.

(** Modelled from the spec: overlap of two component-id sets, for the
    absent planner's conflict detection. *)
Definition overlaps (l1 l2 : list Z) : bool :=
  existsb (fun x => existsb (Z.eqb x) l2) l1.

(** Modelled from the spec: aliasing conflict of two declared footprints
    in the absent planner, a write/write or write/read overlap. *)
Definition conflict (a b : desc) : bool :=
  overlaps (writes (query a)) (writes (query b))
  || overlaps (writes (query a)) (reads (query b))
  || overlaps (reads (query a)) (writes (query b)).

(** Modelled from the spec: co-staging in the absent planner.  Two
    systems may share a stage when neither is
    [no_readonly], no ordering edge relates them and their footprints do
    not conflict. *)
Definition compatible (p : pipeline) (a b : desc) : bool :=
  negb (no_readonly a) && negb (no_readonly b)
  && negb (edge p (entity a) (entity b)) && negb (edge p (entity b) (entity a))
  && negb (conflict a b).

(** Modelled from the spec: the absent planner lets a system join the
    current stage when it is compatible with every member. *)
Definition can_join (p : pipeline) (cur : list desc) (d : desc) : bool :=
  forallb (fun m => compatible p m d) cur.

(** Modelled from the spec: the absent planner's partition of the linear
    order into stages; [cur] is the stage being filled. *)
Fixpoint stages_from (p : pipeline) (cur : list desc) (order : list desc)
  : list (list desc) :=
  match order with
  | [] => [cur]
  | d :: rest =>
      if can_join p cur d then stages_from p (cur ++ [d]) rest
      else cur :: stages_from p [d] rest
  end.

(** Modelled from the spec: the stage sequence the absent planner
    outputs for a linear order. *)
Definition partition (p : pipeline) (order : list desc) : list (list desc) :=
  match order with
  | [] => []
  | d :: rest => stages_from p [d] rest
  end.

(** Modelled from the spec: the systems of a stage that the absent
    planner pins to the main worker. *)
Definition pinned (stage : list desc) : list desc :=
  filter (fun d => multi_threaded d = false) stage.

(** Modelled from the spec: the systems of a stage that the absent
    planner marks eligible for parallel dispatch. *)
Definition parallel (stage : list desc) : list desc :=
  filter (fun d => multi_threaded d = true) stage.

(** Modelled from the spec: the absent plan compilation (graph build,
    then planner).  A cycle is fatal and names its participants; nothing is dropped and no
    partial plan is returned. *)
Definition compile (p : pipeline) : result (list (list desc)) :=
  match linearize p (length (systems p)) (systems p) with
  | Some order => Ok (partition p order)
  | None => Err (CyclicDependency (cycle_participants p))
  end.

(** *** 4.3 Scheduler / executor *)

(** Modelled from the spec: the per-tick state of a system in the absent
    executor; an entity without entry in the status table is still
    [Pending]. *)
Inductive status : Set := Skipped | Ran | Failed.

(** Modelled from the spec: the states of a [depends_on] predecessor that
    make the absent executor skip its dependants. *)
Definition blocked (o : option status) : bool :=
  match o with
  | Some Skipped | Some Failed => true
  | _ => false
  end.

(** Modelled from the spec: the interval accumulator the absent executor
    keeps for a system, zero until first written. *)
Definition acc_of (s : scheduler) (d : desc) : Ftime.t :=
  default Ftime.zero (accum s !! entity d).

(** Modelled from the spec: the interval is optional for the absent
    executor; a descriptor left at zero has none. *)
Definition has_interval (d : desc) : bool := Ftime.ltb Ftime.zero (interval d).

(** Modelled from the spec: interval gating of the absent executor, on
    the time accumulated up to and including this tick. *)
Definition interval_ok (dt : Ftime.t) (s : scheduler) (d : desc) : bool :=
  negb (has_interval d)
  || Ftime.leb (interval d) (Ftime.add (fmt s) (acc_of s d) dt).

(** Modelled from the spec: the counter of a tick source, as the absent
    executor reads it.  The null handle selects the pipeline's own
    per-tick counter; any other entity is a system, whose counter
    advances when it ran. *)
Definition source_count (s : scheduler) (src : Z) : Z :=
  if src =? 0 then frame s else default 0 (ticks s !! src).

(** Modelled from the spec: what the absent executor remembers of a
    rated system, the count of its tick source at which it last ran
    (zero before its first run).  With it a system runs only once on a
    count, also when the source does not advance for several ticks. *)
Definition last_of (s : scheduler) (d : desc) : Z :=
  default 0 (rated_at s !! entity d).

(** Modelled from the spec: rate gating of the absent executor (section
    3, "runs only once every [rate] ticks of the referenced tick
    source's counter").  A rated system is let through when the counter
    of its source shows a multiple of the rate at which the system has
    not run yet; the count zero, before the source has ticked, is not
    one.  A descriptor left at zero is not rated. *)
Definition rate_ok (s : scheduler) (d : desc) : bool :=
  (rate d <=? 0)
  || ((source_count s (tick_source d) mod rate d =? 0)
      && negb (source_count s (tick_source d) =? last_of s d)).

(** Modelled from the spec: dependency gating of the absent executor.  A
    [depends_on] predecessor that was skipped or failed on this tick
    blocks the system. *)
Definition deps_ok (s : scheduler) (done : gmap Z status) (d : desc) : bool :=
  forallb (fun p => negb (has_id (world (pipe s)) (entity d) (EcsDependsOn, entity p)
                          && blocked (done !! entity p)))
          (systems (pipe s)).

(** Modelled from the spec: the state machine of the absent executor,
    [Pending -> Skipped], or [Pending -> Eligible -> Ran | Failed] by the
    callback's report. *)
Definition decide_status (dt : Ftime.t) (s : scheduler) (done : gmap Z status)
  (d : desc) : status :=
  if interval_ok dt s d && rate_ok s d && deps_ok s done d then
    if run d (mk_iter (entity d) dt (frame s)) then Ran else Failed
  else Skipped.

(** Modelled from the spec: the interval accumulator after a tick of the
    absent executor.  Elapsed time is accumulated on every tick; on [Ran]
    the accumulator is reduced by the interval, not zeroed, so the
    overshoot is carried. *)
Definition settle (f : Ftime.format) (dt : Ftime.t) (acc : Ftime.t) (d : desc)
  (st : status) : Ftime.t :=
  if has_interval d then
    match st with
    | Ran => Ftime.sub f (Ftime.add f acc dt) (interval d)
    | _ => Ftime.add f acc dt
    end
  else acc.

(** Modelled from the spec: the absent executor's timer update at the
    stage barrier, for one system of the stage; [s0] is the state the
    stage was gated against.  The accumulator is settled; on [Ran] the
    system's own counter advances by one, and the source count the
    system ran at is remembered. *)
Definition commit_one (dt : Ftime.t) (s0 s : scheduler) (r : desc * status)
  : scheduler :=
  let d := fst r in
  mk_scheduler (pipe s) (fmt s) (clock s) (frame s)
    (<[entity d := settle (fmt s) dt (acc_of s d) d (snd r)]> (accum s))
    (match snd r with
     | Ran => <[entity d := default 0 (ticks s !! entity d) + 1]> (ticks s)
     | _ => ticks s
     end)
    (match snd r with
     | Ran => <[entity d := source_count s0 (tick_source d)]> (rated_at s)
     | _ => rated_at s
     end).

(** Modelled from the spec: the absent executor records the status of a
    system for the tick result. *)
Definition record_one (done : gmap Z status) (r : desc * status) : gmap Z status :=
  <[entity (fst r) := snd r]> done.

(** Modelled from the spec: one stage of the absent executor.  Gating is
    evaluated for every system of the stage against the state reached at
    the previous barrier, the eligible ones are dispatched, and the
    timers are updated at the barrier that ends the stage. *)
Definition run_stage (dt : Ftime.t) (s : scheduler) (done : gmap Z status)
  (stage : list desc) : scheduler * gmap Z status :=
  let rs := map (fun d => (d, decide_status dt s done d)) stage in
  (fold_left (commit_one dt s) rs s, fold_left record_one rs done).

(** Modelled from the spec: the absent executor walks the stages in plan
    order, each stage starting from the barrier that ended the previous
    one. *)
Fixpoint run_stages (dt : Ftime.t) (plan : list (list desc)) (s : scheduler)
  (done : gmap Z status) : scheduler * gmap Z status :=
  match plan with
  | [] => (s, done)
  | stage :: rest =>
      let '(s1, done1) := run_stage dt s done stage in
      run_stages dt rest s1 done1
  end.

(** Modelled from the spec: the absent clock advances once per tick, and
    with it the pipeline's own per-tick counter. *)
Definition advance (dt : Ftime.t) (s : scheduler) : scheduler :=
  mk_scheduler (pipe s) (fmt s) (Ftime.add (fmt s) (clock s) dt) (frame s + 1)
    (accum s) (ticks s) (rated_at s).

(** Modelled from the spec: the tick entry point of the absent
    scheduler.  The plan is compiled from the current descriptors and
    edges; a compilation error is surfaced and nothing runs.  Otherwise
    the stages run in plan order and the statuses of the tick are
    returned with the new scheduler state. *)
Definition tick (dt : Ftime.t) (s : scheduler)
  : result (scheduler * gmap Z status) :=
  match compile (pipe s) with
  | Err e => Err e
  | Ok plan => Ok (run_stages dt plan (advance dt s) ∅)
  end.

(** Modelled from the spec: a run of ticks of the absent scheduler; the
    status tables come back oldest first. *)
Fixpoint run_ticks (dts : list Ftime.t) (s : scheduler)
  : result (scheduler * list (gmap Z status)) :=
  match dts with
  | [] => Ok (s, [])
  | dt :: rest =>
      match tick dt s with
      | Err e => Err e
      | Ok (s1, st) =>
          match run_ticks rest s1 with
          | Err e => Err e
          | Ok (s2, sts) => Ok (s2, st :: sts)
          end
      end
  end.

(** *** Properties of plans used in the proofs *)

(** The order has no back edge: nothing placed at or after a system must
    run before it. *)
Definition no_back_edge (p : pipeline) (order : list desc) : Prop :=
  forall l1 d l2, order = l1 ++ d :: l2 ->
  forall x, In x (d :: l2) -> edge p (entity x) (entity d) = false.

(** A chain [a; b; c; ...] follows the edges [a -> b -> c -> ...]. *)
Fixpoint chain (p : pipeline) (l : list desc) : Prop :=
  match l with
  | a :: ((b :: _) as rest) => edge p (entity a) (entity b) = true /\ chain p rest
  | _ => True
  end.

(** No ordering edge relates two members of the stage. *)
Definition apart (p : pipeline) (stage : list desc) : Prop :=
  forall l1 a l2, stage = l1 ++ a :: l2 ->
  forall b, In b l1 ->
    edge p (entity b) (entity a) = false /\ edge p (entity a) (entity b) = false.

(** *** The planner's contract, in the words of the spec

    Section 4.2 asks for a topological order whose ties are broken by
    registration order, cut into conflict-free stages.  The following
    checkers state this on a finished plan, without reference to the way
    [linearize] and [stages_from] compute it. *)

(** Modelled from the spec: the position of the system with identity [e]
    in registration order (4.2, "tie-break by registration order"). *)
Fixpoint rank (l : list desc) (e : Z) : nat :=
  match l with
  | [] => O
  | x :: rest => if entity x =? e then O else S (rank rest e)
  end.

(** Modelled from the spec: the system has a place in the order built so
    far (identities, not positions: section 3). *)
Definition is_placed (placed : list desc) (x : desc) : bool :=
  existsb (fun y => entity y =? entity x) placed.

(** Modelled from the spec: a topological order (4.2) may place [x] next
    when [x] is not placed yet and every registered system that must run
    before it is. *)
Definition placeable (p : pipeline) (placed : list desc) (x : desc) : bool :=
  negb (is_placed placed x)
  && forallb (fun y => is_placed placed y || negb (edge p (entity y) (entity x)))
             (systems p).

(** Modelled from the spec: the tie-break of 4.2.  Of all the registered
    systems that may be placed next, [d] is one that was registered
    first. *)
Definition tie_broken (p : pipeline) (placed : list desc) (d : desc) : bool :=
  placeable p placed d
  && forallb (fun x => negb (placeable p placed x)
                       || Nat.leb (rank (systems p) (entity d))
                                  (rank (systems p) (entity x)))
             (systems p).

(** Modelled from the spec: a linear order that continues [placed] as 4.2
    requires: every placement breaks its tie by registration order, and
    in the end every registered system is placed. *)
Fixpoint by_registration_from (p : pipeline) (placed order : list desc) : bool :=
  match order with
  | [] => forallb (is_placed placed) (systems p)
  | d :: rest => tie_broken p placed d && by_registration_from p (placed ++ [d]) rest
  end.

Definition by_registration (p : pipeline) (order : list desc) : bool :=
  by_registration_from p [] order.

(** Modelled from the spec: the stage condition of 4.2 and 8.  Any two
    systems of a stage are free of ordering edges and of footprint
    conflicts, and neither is [no_readonly]. *)
Fixpoint conflict_free (p : pipeline) (stage : list desc) : bool :=
  match stage with
  | [] => true
  | d :: rest => forallb (compatible p d) rest && conflict_free p rest
  end.

(** Modelled from the spec: a stage boundary that is needed.  The first
    system of the next stage could not have shared the stage that ends
    here.  The spec leaves the size of the stages open; this is the
    choice of the modelled planner. *)
Definition forced (p : pipeline) (stage next : list desc) : bool :=
  match next with
  | [] => false
  | d :: _ => existsb (fun m => negb (compatible p m d)) stage
  end.

(** Modelled from the spec: a stage sequence as the planner of 4.2
    outputs it: no stage is empty, every stage is conflict-free, and
    every boundary is needed. *)
Fixpoint maximal_stages (p : pipeline) (plan : list (list desc)) : bool :=
  match plan with
  | [] => true
  | stage :: rest =>
      negb (Nat.eqb (length stage) 0)
      && conflict_free p stage
      && match rest with
         | [] => true
         | next :: _ => forced p stage next
         end
      && maximal_stages p rest
  end.

(** The system carries no [depends_on] relation to a registered system. *)
Definition no_dependency (p : pipeline) (d : desc) : bool :=
  forallb (fun x => negb (has_id (world p) (entity d) (EcsDependsOn, entity x)))
          (systems p).

(** A system that reads nothing another system can change during a tick:
    if it is rated at all it is rated against the pipeline's own counter,
    and it has no dependency. *)
Definition independent (p : pipeline) (d : desc) : bool :=
  ((rate d <=? 0) || (tick_source d =? 0)) && no_dependency p d.

(** On every tick of the run [d] reads a tick source that has already
    advanced by one on that tick: the source is the pipeline's own
    per-tick counter, or it is a system that must run before [d] (so its
    barrier comes first) and that ran on every tick. *)
Definition steady_source (s : scheduler) (dts : list Ftime.t) (d : desc) : Prop :=
  tick_source d = 0
  \/ (edge (pipe s) (tick_source d) (entity d) = true
      /\ forall s' sts, run_ticks dts s = Ok (s', sts) ->
         Forall (fun st : gmap Z status => st !! tick_source d = Some Ran) sts).

(** The callback of the system was invoked on this tick. *)
Definition dispatched (o : option status) : Prop :=
  o = Some Ran \/ o = Some Failed.

(** Two pipelines with the same descriptors in the same registration
    order, the same explicit edges and the same phase ordering. *)
Definition agree (p1 p2 : pipeline) : Prop :=
  systems p1 = systems p2 /\ world p1 = world p2 /\
  forall a b, phase_order p1 a b = phase_order p2 a b.

End Core.


(** ** Sample configurations, built through the builder *)
Module Samples.
Import Desc Store Core.

(** A descriptor with nothing configured and a callback that succeeds. *)
Definition blank (e : Z) : desc :=
  mk_desc e (mk_footprint [] []) (fun _ => true) 0 Ftime.zero 0 0 true false tt.

Definition builder_for (e : Z) (w : Store.world) : Builder.system_builder_i :=
  Builder.mk_builder (blank e) w.

(** System 1 declares [after(2)] and system 2 declares [after(1)]. *)
Definition cyclic_world : Store.world :=
  Builder.world_v
    (Builder.after 1
       (builder_for 2 (Builder.world_v (Builder.after 2 (builder_for 1 ∅))))).

Definition cyclic : scheduler :=
  mk_scheduler (mk_pipeline [blank 1; blank 2] cyclic_world (fun _ _ => false))
               Ftime.binary32 Ftime.zero 0 ∅ ∅ ∅.

(** System 1 runs at interval 1.0, system 2 depends on system 1, system 3
    runs at rate 3 of the pipeline's counter. *)
Definition timed : Builder.system_builder_i :=
  Builder.interval (Ftime.of_Z Ftime.binary32 1) (builder_for 1 ∅).

Definition follower : Builder.system_builder_i :=
  Builder.depends_on 1 (builder_for 2 (Builder.world_v timed)).

Definition rated : Builder.system_builder_i :=
  Builder.rate 3 (builder_for 3 (Builder.world_v follower)).

Definition demo : scheduler :=
  mk_scheduler
    (mk_pipeline [Builder.m_desc timed; Builder.m_desc follower; Builder.m_desc rated]
                 (Builder.world_v rated)
                 (fun _ _ => false))
    Ftime.binary32 Ftime.zero 0 ∅ ∅ ∅.

(** The same pipeline in a scheduler whose clock and timers have moved. *)
Definition demo_later : scheduler :=
  mk_scheduler (pipe demo) Ftime.binary32 (Ftime.of_Z Ftime.binary32 7) 21
    (<[1 := Ftime.decimal Ftime.binary32 1 2]> ∅) (<[3 := 7]> ∅) (<[3 := 21]> ∅).

(** The delta time 0.4 in single precision. *)
Definition dt04 : Ftime.t := Ftime.decimal Ftime.binary32 4 10.

(** The same system in a scheduler whose durations are in double
    precision. *)
Definition timed64 : Builder.system_builder_i :=
  Builder.interval (Ftime.of_Z Ftime.binary64 1) (builder_for 1 ∅).

Definition demo64 : scheduler :=
  mk_scheduler (mk_pipeline [Builder.m_desc timed64] ∅ (fun _ _ => false))
    Ftime.binary64 Ftime.zero 0 ∅ ∅ ∅.

(** The delta time 0.4 in double precision. *)
Definition dt04_64 : Ftime.t := Ftime.decimal Ftime.binary64 4 10.

(** System 4 runs on every tick; system 5 declares [after(4)] and runs at
    rate 3 of system 4's tick counter. *)
Definition ticker : Builder.system_builder_i := builder_for 4 ∅.

Definition relayed : Builder.system_builder_i :=
  Builder.after 4 (Builder.rate_of 4 3 (builder_for 5 (Builder.world_v ticker))).

Definition relay : scheduler :=
  mk_scheduler
    (mk_pipeline [Builder.m_desc relayed; Builder.m_desc ticker]
                 (Builder.world_v relayed) (fun _ _ => false))
    Ftime.binary32 Ftime.zero 0 ∅ ∅ ∅.




Definition relay_plan : list (list desc) :=
  match compile (pipe relay) with
  | Ok plan => plan
  | Err _ => []
  end.

Definition demo_plan : list (list desc) :=
  match compile (pipe demo) with
  | Ok plan => plan
  | Err _ => []
  end.

(** The first tick of [demo], with delta time 0.4. *)
Definition first_tick : scheduler * gmap Z status :=
  match tick dt04 demo with
  | Ok r => r
  | Err _ => (demo, ∅)
  end.

(** Three ticks of [demo], and of [demo64], with delta time 0.4: the
    final state and the status tables. *)
Definition three_ticks : scheduler * list (gmap Z status) :=
  match run_ticks [dt04; dt04; dt04] demo with
  | Ok r => r
  | Err _ => (demo, [])
  end.

Definition three_ticks64 : scheduler * list (gmap Z status) :=
  match run_ticks [dt04_64; dt04_64; dt04_64] demo64 with
  | Ok r => r
  | Err _ => (demo64, [])
  end.

End Samples.

(** ** Sample chains of builder calls *)
Module CallSamples.
Import Store Calls.

(** A type lookup for the samples: the type numbered [n] has entity [n]
    (so type 0 resolves to the null handle) and the world is left as it
    is. *)
Definition numbered (n : nat) (w : @world_t Store.api) : @world_t Store.api * Z :=
  (w, Z.of_nat n).

(** The duration 0.5. *)
Definition half : Ftime.t := Ftime.decimal Ftime.binary32 1 2.

Definition mixed_chain : list (call nat) :=
  [Rate nat 3; After nat 7; Interval nat half; DependsOnType nat 4%nat;
   Before nat 0; TickSource nat 9; BeforeType nat 0%nat; Rate nat 5].

Definition entity_chain : list (call nat) :=
  [After nat 7; Rate nat 3; Before nat 8; DependsOn nat 0; DependsOn nat 2].

Definition timing : call nat := Interval nat half.
Definition ordering : call nat := AfterType nat 4%nat.

(** A builder for entity 1 over a world that already holds a relation. *)
Definition busy_builder : Builder.system_builder_i :=
  Builder.mk_builder (Samples.blank 1) (add_id ∅ 5 (EcsAfter, 6)).

(** A builder for entity 1 whose descriptor is already configured. *)
Definition tuned_builder : Builder.system_builder_i :=
  Builder.no_readonly true
    (Builder.interval (Ftime.of_Z Ftime.binary32 2) (Samples.builder_for 1 ∅)).

End CallSamples.
(** * Properties of the builder *)
Module BuilderFacts.
Import Builder.
Import Desc (desc_field(..)).

Section WithApi.
Context `{Api : FlecsApi}.

Lemma with_world_desc (w : world_t) (b : system_builder_i) :
  m_desc (with_world w b) = m_desc b.
Proof. reflexivity. Qed.

Lemma after_nonzero (other : Z) (b : system_builder_i) :
  other <> 0 ->
  after other b
  = with_world (ecs_add_id (world_v b) (Desc.entity (m_desc b)) (ecs_after other)) b.
Proof.
  intros Hnz. unfold after.
  destruct (Z.eqb_spec other 0) as [E | _]; [contradiction | reflexivity].
Qed.

Lemma before_nonzero (other : Z) (b : system_builder_i) :
  other <> 0 ->
  before other b
  = with_world (ecs_add_id (world_v b) other (ecs_after (Desc.entity (m_desc b)))) b.
Proof.
  intros Hnz. unfold before.
  destruct (Z.eqb_spec other 0) as [E | _]; [contradiction | reflexivity].
Qed.

Lemma depends_on_nonzero (other : Z) (b : system_builder_i) :
  other <> 0 ->
  depends_on other b
  = with_world (ecs_add_id (world_v b) (Desc.entity (m_desc b)) (ecs_dependson other)) b.
Proof.
  intros Hnz. unfold depends_on.
  destruct (Z.eqb_spec other 0) as [E | _]; [contradiction | reflexivity].
Qed.

(** A setter that rebuilds the descriptor with one or two fields replaced
    satisfies [frame] for those fields: every other accessor reads the
    same value, and the world component is the receiver's. *)
Ltac frame_tac :=
  split; [reflexivity |];
  let f := fresh "f" in let Hf := fresh "Hf" in
  intros f Hf; destruct f; try reflexivity;
  exfalso; apply Hf; simpl; tauto.

(** C1: for a system [S] (the non-null entity of builder [bS]) and a
    non-null entity [X] (the entity of builder [bX]) over the same world,
    [bS.before(X)] and [bX.after(S)] have the same effect: each performs
    the one call [ecs_add_id(world, X, ecs_after(S))] and leaves its
    descriptor as it was. *)
Theorem before_is_after_on_target (bS bX : system_builder_i) :
  world_v bS = world_v bX ->
  Desc.entity (m_desc bS) <> 0 ->
  Desc.entity (m_desc bX) <> 0 ->
  let S := Desc.entity (m_desc bS) in
  let X := Desc.entity (m_desc bX) in
  world_v (before X bS) = world_v (after S bX)
  /\ world_v (before X bS) = ecs_add_id (world_v bS) X (ecs_after S)
  /\ m_desc (before X bS) = m_desc bS
  /\ m_desc (after S bX) = m_desc bX.
Proof.
  intros Hw HS HX S X.
  rewrite (before_nonzero X bS HX), (after_nonzero S bX HS).
  simpl. rewrite <- Hw. repeat split; reflexivity.
Qed.

(** C2 (amended): a self-edge is not rejected by the builder.  For a
    system [S] with a non-null handle, [after(S)], [before(S)] and
    [depends_on(S)] on the builder of [S] report nothing, keep the
    descriptor, and add the relation to [S] itself. *)
Theorem self_edge_is_declared (b : system_builder_i) :
  Desc.entity (m_desc b) <> 0 ->
  let S := Desc.entity (m_desc b) in
  (m_desc (after S b) = m_desc b
   /\ world_v (after S b) = ecs_add_id (world_v b) S (ecs_after S))
  /\ (m_desc (before S b) = m_desc b
      /\ world_v (before S b) = ecs_add_id (world_v b) S (ecs_after S))
  /\ (m_desc (depends_on S b) = m_desc b
      /\ world_v (depends_on S b) = ecs_add_id (world_v b) S (ecs_dependson S)).
Proof.
  intros HS S.
  rewrite (after_nonzero S b HS), (before_nonzero S b HS), (depends_on_nonzero S b HS).
  repeat split; reflexivity.
Qed.

(** C8: each descriptor setter stores the supplied value in its own
    field(s), leaves every other descriptor field and the world as they
    were, and yields the builder it was called on (the result is that
    builder with the new descriptor). *)
Theorem setters_write_their_field (b : system_builder_i)
  (vb : bool) (vi : ecs_ftime_t) (vr : Z) (vs : Z) (vc : ctx_ptr_t)
  (va : ecs_iter_action_t) :
  (Desc.multi_threaded (m_desc (multi_threaded vb b)) = vb
   /\ frame [F_multi_threaded] b (multi_threaded vb b))
  /\ (Desc.no_readonly (m_desc (no_readonly vb b)) = vb
      /\ frame [F_no_readonly] b (no_readonly vb b))
  /\ (Desc.interval (m_desc (interval vi b)) = vi
      /\ frame [F_interval] b (interval vi b))
  /\ (Desc.rate (m_desc (rate vr b)) = vr
      /\ frame [F_rate] b (rate vr b))
  /\ (Desc.rate (m_desc (rate_of vs vr b)) = vr
      /\ Desc.tick_source (m_desc (rate_of vs vr b)) = vs
      /\ frame [F_rate; F_tick_source] b (rate_of vs vr b))
  /\ (Desc.tick_source (m_desc (tick_source vs b)) = vs
      /\ frame [F_tick_source] b (tick_source vs b))
  /\ (Desc.ctx (m_desc (ctx vc b)) = vc
      /\ frame [F_ctx] b (ctx vc b))
  /\ (Desc.run (m_desc (run va b)) = va
      /\ frame [F_run] b (run va b)).
Proof.
  repeat match goal with
         | |- _ /\ _ => split
         | |- frame _ _ _ => frame_tac
         | |- _ = _ => reflexivity
         end.
Qed.

(** C9: [depends_on(0)], [after(0)] and [before(0)] are no-ops: the
    builder comes back with the same descriptor and the same world, and
    [ecs_add_id] is not called. *)
Theorem null_handle_is_noop (b : system_builder_i) :
  depends_on 0 b = b /\ after 0 b = b /\ before 0 b = b.
Proof. repeat split; reflexivity. Qed.

(** C10: [rate(r)] writes the [rate] field only, so [tick_source] and all
    other fields keep their value; [rate(tick_source, r)] writes both
    [rate] and [tick_source] and nothing else. *)
Theorem rate_overloads (b : system_builder_i) (src r : Z) :
  (Desc.rate (m_desc (rate r b)) = r
   /\ Desc.tick_source (m_desc (rate r b)) = Desc.tick_source (m_desc b)
   /\ frame [F_rate] b (rate r b))
  /\ (Desc.rate (m_desc (rate_of src r b)) = r
      /\ Desc.tick_source (m_desc (rate_of src r b)) = src
      /\ frame [F_rate; F_tick_source] b (rate_of src r b)).
Proof.
  repeat match goal with
         | |- _ /\ _ => split
         | |- frame _ _ _ => frame_tac
         | |- _ = _ => reflexivity
         end.
Qed.

End WithApi.
End BuilderFacts.

(** * Properties of the dependency graph and of the planner *)
Module PlannerFacts.
Import Desc Store Core.

Lemma has_id_true (w : Store.world) (e : Z) (i : Store.id) :
  has_id w e i = true <-> (e, i) ∈ w.
Proof. unfold has_id. apply bool_decide_eq_true. Qed.

Lemma has_id_add (w : Store.world) (e : Z) (i : Store.id) :
  has_id (add_id w e i) e i = true.
Proof. apply has_id_true. unfold add_id. set_solver. Qed.

Lemma edge_of_after (p : pipeline) (a b : Z) :
  has_id (world p) b (EcsAfter, a) = true -> edge p a b = true.
Proof. intros H. unfold edge. rewrite H. reflexivity. Qed.

Lemma edge_of_depends_on (p : pipeline) (a b : Z) :
  has_id (world p) b (EcsDependsOn, a) = true -> edge p a b = true.
Proof. intros H. unfold edge. rewrite H. apply orb_true_iff. left. apply orb_true_r. Qed.

(** *** Paths *)

Lemma reaches_one (p : pipeline) (f : nat) (a : Z) (u : desc) :
  In u (systems p) -> edge p a (entity u) = true ->
  reaches p (S f) a (entity u) = true.
Proof.
  intros Hu He. simpl. apply existsb_exists. exists u. split; [exact Hu |].
  rewrite He, Z.eqb_refl. reflexivity.
Qed.

Lemma reaches_two (p : pipeline) (f : nat) (a : Z) (u v : desc) :
  In u (systems p) -> In v (systems p) ->
  edge p a (entity u) = true -> edge p (entity u) (entity v) = true ->
  reaches p (S (S f)) a (entity v) = true.
Proof.
  intros Hu Hv Hau Huv.
  change (existsb (fun x => edge p a (entity x)
                            && ((entity x =? entity v) || reaches p (S f) (entity x) (entity v)))
                  (systems p) = true).
  apply existsb_exists. exists u. split; [exact Hu |].
  rewrite Hau, (reaches_one p f (entity u) v Hv Huv). simpl. apply orb_true_r.
Qed.

Lemma two_systems (l : list desc) (a b : desc) :
  In a l -> In b l -> entity a <> entity b -> (2 <= length l)%nat.
Proof.
  intros Ha Hb Hne.
  destruct l as [| x [| y l']].
  - destruct Ha.
  - destruct Ha as [-> | []]. destruct Hb as [-> | []]. congruence.
  - simpl. lia.
Qed.

(** Two systems that precede each other both lie on a cycle. *)
Lemma mutual_edges_on_cycle (p : pipeline) (a b : desc) :
  In a (systems p) -> In b (systems p) ->
  edge p (entity a) (entity b) = true -> edge p (entity b) (entity a) = true ->
  on_cycle p a = true.
Proof.
  intros Ha Hb Hab Hba. unfold on_cycle.
  destruct (Z.eq_dec (entity a) (entity b)) as [E | N].
  - destruct (length (systems p)) as [| n] eqn:Hn.
    + destruct (systems p); [destruct Ha | discriminate].
    + apply reaches_one; [exact Ha |]. rewrite E at 1. exact Hba.
  - pose proof (two_systems _ a b Ha Hb N) as Hlen.
    destruct (length (systems p)) as [| [| n]] eqn:Hn; try lia.
    apply (reaches_two p n (entity a) b a); assumption.
Qed.

Lemma on_cycle_participant (p : pipeline) (d : desc) :
  In d (systems p) -> on_cycle p d = true -> In (entity d) (cycle_participants p).
Proof.
  intros Hd Hc. unfold cycle_participants. apply in_map.
  apply list_elem_of_In. apply list_elem_of_filter. split; [exact Hc |].
  apply list_elem_of_In. exact Hd.
Qed.

(** *** The linear order *)

Lemma in_drop (d x : desc) (l : list desc) :
  In x (drop d l) <-> entity x <> entity d /\ In x l.
Proof.
  unfold drop. rewrite <- !list_elem_of_In.
  apply (list_elem_of_filter (fun y : desc => entity y <> entity d)).
Qed.

Lemma first_ready_some (p : pipeline) (rem : list desc) (d : desc) :
  first_ready p rem = Some d -> In d rem /\ ready p rem d = true.
Proof. unfold first_ready. apply find_some. Qed.

Lemma ready_no_edge (p : pipeline) (rem : list desc) (d x : desc) :
  ready p rem d = true -> In x rem -> edge p (entity x) (entity d) = false.
Proof.
  unfold ready. intros Hr Hx.
  rewrite forallb_forall in Hr. specialize (Hr x Hx).
  apply negb_true_iff in Hr. exact Hr.
Qed.

(** Unfolding of one successful round of [linearize]. *)
Lemma linearize_cons (p : pipeline) (f : nat) (rem order : list desc) :
  rem <> [] -> linearize p f rem = Some order ->
  exists f' d rest,
    f = S f' /\ first_ready p rem = Some d /\
    linearize p f' (drop d rem) = Some rest /\ order = d :: rest.
Proof.
  intros Hne H. destruct rem as [| x rem']; [congruence |].
  destruct f as [| f']; [discriminate |].
  cbn [linearize] in H.
  destruct (first_ready p (x :: rem')) as [d |] eqn:Hf; [| discriminate].
  destruct (linearize p f' (drop d (x :: rem'))) as [rest |] eqn:Hl; [| discriminate].
  inversion H; subst. exists f', d, rest. repeat split; assumption.
Qed.

Lemma linearize_nil (p : pipeline) (f : nat) : linearize p f [] = Some [].
Proof. destruct f; reflexivity. Qed.

(** Every placed system was waiting. *)
Lemma linearize_sub (p : pipeline) (f : nat) :
  forall rem order, linearize p f rem = Some order ->
  forall x, In x order -> In x rem.
Proof.
  induction f as [| f IH]; intros rem order H x Hx.
  - destruct rem; simpl in H; [inversion H; subst; destruct Hx | discriminate].
  - destruct rem as [| y rem'].
    + simpl in H. inversion H; subst. destruct Hx.
    + destruct (linearize_cons p (S f) (y :: rem') order) as (f' & d & rest & Ef & Hd & Hl & ->);
        [discriminate | exact H |].
      inversion Ef; subst f'.
      destruct Hx as [-> | Hx].
      * apply (first_ready_some p _ _ Hd).
      * apply (in_drop d x (y :: rem')). apply (IH _ _ Hl x Hx).
Qed.

(** Every waiting system is placed (under its entity). *)
Lemma linearize_complete (p : pipeline) (f : nat) :
  forall rem order, linearize p f rem = Some order ->
  forall x, In x rem -> exists x', In x' order /\ entity x' = entity x.
Proof.
  induction f as [| f IH]; intros rem order H x Hx.
  - destruct rem; simpl in H; [destruct Hx | discriminate].
  - destruct rem as [| y rem']; [destruct Hx |].
    destruct (linearize_cons p (S f) (y :: rem') order) as (f' & d & rest & Ef & Hd & Hl & ->);
      [discriminate | exact H |].
    inversion Ef; subst f'.
    destruct (Z.eq_dec (entity x) (entity d)) as [E | N].
    + exists d. split; [left; reflexivity | congruence].
    + destruct (IH _ _ Hl x) as (x' & Hx' & Ex').
      { apply in_drop. split; assumption. }
      exists x'. split; [right; exact Hx' | exact Ex'].
Qed.

(** No entity is placed twice. *)
Lemma linearize_nodup (p : pipeline) (f : nat) :
  forall rem order, linearize p f rem = Some order -> List.NoDup (map entity order).
Proof.
  induction f as [| f IH]; intros rem order H.
  - destruct rem; simpl in H; [inversion H; constructor | discriminate].
  - destruct rem as [| y rem'].
    + simpl in H. inversion H. constructor.
    + destruct (linearize_cons p (S f) (y :: rem') order) as (f' & d & rest & Ef & Hd & Hl & ->);
        [discriminate | exact H |].
      inversion Ef; subst f'. simpl. constructor.
      * intros Hin. apply in_map_iff in Hin. destruct Hin as (x & Ex & Hx).
        apply (linearize_sub p f _ _ Hl) in Hx. apply in_drop in Hx.
        destruct Hx as [N _]. contradiction.
      * apply (IH _ _ Hl).
Qed.

(** With one descriptor per entity, the placed systems are the
    registered descriptors themselves. *)
Lemma linearize_keeps (p : pipeline) (f : nat) (rem order : list desc) (x : desc) :
  List.NoDup (map entity rem) -> linearize p f rem = Some order ->
  In x rem -> In x order.
Proof.
  intros Hnd H Hx.
  destruct (linearize_complete p f rem order H x Hx) as (x' & Hx' & E).
  pose proof (linearize_sub p f rem order H x' Hx') as Hr.
  assert (x' = x) as ->; [| exact Hx'].
  clear - Hnd Hr Hx E. induction rem as [| y rem IH]; [destruct Hx |].
  simpl in Hnd. inversion Hnd as [| ? ? Hny Hnd']; subst.
  destruct Hr as [-> | Hr], Hx as [-> | Hx]; try reflexivity.
  - exfalso. apply Hny. rewrite E. apply in_map. exact Hx.
  - exfalso. apply Hny. rewrite <- E. apply in_map. exact Hr.
  - apply IH; assumption.
Qed.

Lemma linearize_sorted (p : pipeline) (f : nat) :
  forall rem order, linearize p f rem = Some order -> no_back_edge p order.
Proof.
  induction f as [| f IH]; intros rem order H l1 d l2 Hsplit x Hx.
  - destruct rem; simpl in H; [| discriminate].
    inversion H; subst. destruct l1; discriminate.
  - destruct rem as [| y rem'].
    + simpl in H. inversion H; subst. destruct l1; discriminate.
    + destruct (linearize_cons p (S f) (y :: rem') order) as (f' & d0 & rest & Ef & Hd & Hl & ->);
        [discriminate | exact H |].
      inversion Ef; subst f'.
      destruct l1 as [| z l1'].
      * simpl in Hsplit. inversion Hsplit; subst d0 rest.
        destruct (first_ready_some p _ _ Hd) as [Hin Hr].
        apply (ready_no_edge p _ _ x Hr).
        destruct Hx as [-> | Hx]; [exact Hin |].
        apply (in_drop d x (y :: rem')). apply (linearize_sub p f _ _ Hl x Hx).
      * simpl in Hsplit. inversion Hsplit; subst z rest.
        apply (IH _ _ Hl l1' d l2 eq_refl x Hx).
Qed.

(** Mutual predecessors cannot both be placed. *)
Lemma mutual_edges_stuck (p : pipeline) (a b : desc) :
  In a (systems p) -> In b (systems p) ->
  edge p (entity a) (entity b) = true -> edge p (entity b) (entity a) = true ->
  linearize p (length (systems p)) (systems p) = None.
Proof.
  intros Ha Hb Hab Hba.
  destruct (linearize p (length (systems p)) (systems p)) as [order |] eqn:H;
    [exfalso | reflexivity].
  pose proof (linearize_sorted p _ _ _ H) as Hs.
  destruct (linearize_complete p _ _ _ H a Ha) as (a' & Ha' & Ea).
  destruct (linearize_complete p _ _ _ H b Hb) as (b' & Hb' & Eb).
  rewrite <- Ea, <- Eb in Hab, Hba.
  destruct (in_split a' order Ha') as (l1 & l2 & Hsplit).
  assert (In b' l1 \/ In b' (a' :: l2)) as [Hb1 | Hb2].
  { rewrite Hsplit in Hb'. apply in_app_or in Hb'. exact Hb'. }
  - destruct (in_split b' l1 Hb1) as (m1 & m2 & Hl1).
    assert (order = m1 ++ b' :: (m2 ++ a' :: l2)) as Hsplit'.
    { rewrite Hsplit, Hl1. rewrite <- app_assoc. reflexivity. }
    pose proof (Hs m1 b' (m2 ++ a' :: l2) Hsplit' a') as Hno.
    rewrite Hab in Hno. discriminate Hno.
    right. apply in_or_app. right. left. reflexivity.
  - pose proof (Hs l1 a' l2 Hsplit b' Hb2) as Hno.
    rewrite Hba in Hno. discriminate Hno.
Qed.

(** *** Tie-break by registration order *)

Lemma unplaced_nil (p : pipeline) : unplaced p [] = systems p.
Proof.
  unfold unplaced. induction (systems p) as [| x l IH]; [reflexivity |].
  rewrite filter_cons_True; [f_equal; exact IH |].
  simpl. apply not_elem_of_nil.
Qed.

Lemma filter_unplaced_drop (z : desc) (pre rem : list desc) :
  filter (fun x => entity x ∉ map entity (z :: pre)) rem
  = filter (fun x => entity x ∉ map entity pre) (drop z rem).
Proof.
  unfold drop. rewrite list_filter_filter. apply list_filter_iff.
  intros x. simpl. rewrite not_elem_of_cons. tauto.
Qed.

Lemma linearize_first_ready (p : pipeline) (f : nat) :
  forall rem order, linearize p f rem = Some order ->
  forall pre d post, order = pre ++ d :: post ->
  first_ready p (filter (fun x => entity x ∉ map entity pre) rem) = Some d.
Proof.
  induction f as [| f IH]; intros rem order H pre d post Hsplit.
  - destruct rem; simpl in H; [| discriminate].
    inversion H; subst. destruct pre; discriminate.
  - destruct rem as [| y rem'].
    + simpl in H. inversion H; subst. destruct pre; discriminate.
    + destruct (linearize_cons p (S f) (y :: rem') order) as (f' & d0 & rest & Ef & Hd & Hl & ->);
        [discriminate | exact H |].
      inversion Ef; subst f'.
      destruct pre as [| z pre'].
      * simpl in Hsplit. inversion Hsplit; subst d0 rest.
        replace (filter (fun x : desc => entity x ∉ map entity []) (y :: rem'))
          with (y :: rem'); [exact Hd |].
        symmetry. clear. induction (y :: rem') as [| x l IH]; [reflexivity |].
        rewrite filter_cons_True; [f_equal; exact IH |].
        simpl. apply not_elem_of_nil.
      * simpl in Hsplit. inversion Hsplit; subst z rest.
        rewrite filter_unplaced_drop.
        apply (IH _ _ Hl pre' d post eq_refl).
Qed.

(** *** Stages *)

Lemma concat_stages_from (p : pipeline) :
  forall order cur, concat (stages_from p cur order) = cur ++ order.
Proof.
  induction order as [| d rest IH]; intros cur; simpl.
  - reflexivity.
  - destruct (can_join p cur d).
    + rewrite IH, <- app_assoc. reflexivity.
    + simpl. rewrite IH. reflexivity.
Qed.

Lemma concat_partition (p : pipeline) (order : list desc) :
  concat (partition p order) = order.
Proof.
  destruct order as [| d rest]; [reflexivity |].
  simpl. apply concat_stages_from.
Qed.

Lemma apart_single (p : pipeline) (d : desc) : apart p [d].
Proof.
  intros l1 a l2 H b Hb. destruct l1 as [| x l1']; [destruct Hb |].
  simpl in H. inversion H as [[E1 E2]]. destruct l1'; discriminate.
Qed.

Lemma can_join_compatible (p : pipeline) (cur : list desc) (d m : desc) :
  can_join p cur d = true -> In m cur ->
  edge p (entity m) (entity d) = false /\ edge p (entity d) (entity m) = false.
Proof.
  unfold can_join. intros H Hm. rewrite forallb_forall in H.
  specialize (H m Hm). unfold compatible in H.
  rewrite !andb_true_iff, !negb_true_iff in H. tauto.
Qed.

Lemma apart_snoc (p : pipeline) (cur : list desc) (d : desc) :
  apart p cur -> can_join p cur d = true -> apart p (cur ++ [d]).
Proof.
  intros Hcur Hj l1 a l2 Hsplit b Hb.
  destruct (exists_last (l := a :: l2)) as (l2' & z & Hl); [discriminate |].
  assert (cur = l1 ++ l2' /\ d = z) as [Ecur ->].
  { apply app_inj_tail. rewrite Hsplit, <- app_assoc, <- Hl. reflexivity. }
  destruct l2' as [| a' l2''].
  - rewrite app_nil_r in Ecur. simpl in Hl. inversion Hl; subst.
    apply (can_join_compatible p l1 z b Hj Hb).
  - simpl in Hl. inversion Hl; subst a'.
    apply (Hcur l1 a l2'' Ecur b Hb).
Qed.

Lemma stages_from_apart (p : pipeline) :
  forall order cur, apart p cur -> Forall (apart p) (stages_from p cur order).
Proof.
  induction order as [| d rest IH]; intros cur Hcur; simpl.
  - constructor; [exact Hcur | constructor].
  - destruct (can_join p cur d) eqn:Hj.
    + apply IH. apply apart_snoc; assumption.
    + constructor; [exact Hcur |]. apply IH. apply apart_single.
Qed.

Lemma partition_apart (p : pipeline) (order : list desc) :
  Forall (apart p) (partition p order).
Proof.
  destruct order as [| d rest]; [constructor |].
  simpl. apply stages_from_apart. apply apart_single.
Qed.

(** In a compiled plan a predecessor is placed in a strictly earlier
    stage: it is neither in the stage of its successor nor in a later one. *)
Lemma predecessor_not_later (p : pipeline) (pre post : list (list desc))
  (stage : list desc) (b x : desc) :
  no_back_edge p (concat (pre ++ stage :: post)) ->
  apart p stage ->
  In b stage ->
  edge p (entity x) (entity b) = true ->
  ~ In x (concat (stage :: post)).
Proof.
  intros Hs Ha Hb He Hx.
  destruct (in_split b stage Hb) as (sa & sb & Hst).
  simpl in Hx. rewrite Hst in Hx.
  rewrite <- app_assoc in Hx. apply in_app_or in Hx. destruct Hx as [Hx | Hx].
  - destruct (Ha sa b sb Hst x Hx) as [Hno _]. congruence.
  - assert (concat (pre ++ stage :: post)
            = (concat pre ++ sa) ++ b :: (sb ++ concat post)) as Hsplit.
    { rewrite concat_app. simpl. rewrite Hst, <- !app_assoc. reflexivity. }
    pose proof (Hs _ _ _ Hsplit x Hx) as Hno. congruence.
Qed.

Lemma compile_ok (p : pipeline) (plan : list (list desc)) :
  compile p = Ok plan ->
  exists order,
    linearize p (length (systems p)) (systems p) = Some order
    /\ plan = partition p order.
Proof.
  unfold compile. intros H.
  destruct (linearize p (length (systems p)) (systems p)) as [order |];
    [| discriminate].
  inversion H. exists order. split; reflexivity.
Qed.

(** *** What the builder's declarations mean for the graph *)

Lemma has_id_add_keeps (w : Store.world) (e e' : Z) (i i' : Store.id) :
  has_id w e i = true -> has_id (add_id w e' i') e i = true.
Proof. rewrite !has_id_true. unfold add_id. set_solver. Qed.

Lemma after_declares_edge (b : @Builder.system_builder_i Store.api) (other : Z)
  (l : list desc) (po : Z -> Z -> bool) :
  other <> 0 ->
  edge (mk_pipeline l (Builder.world_v (Builder.after other b)) po)
       other (entity (Builder.m_desc b)) = true.
Proof.
  intros Hnz. apply edge_of_after. unfold Builder.after.
  destruct (Z.eqb_spec other 0) as [E | _]; [contradiction |].
  apply has_id_add.
Qed.

Lemma before_declares_edge (b : @Builder.system_builder_i Store.api) (other : Z)
  (l : list desc) (po : Z -> Z -> bool) :
  other <> 0 ->
  edge (mk_pipeline l (Builder.world_v (Builder.before other b)) po)
       (entity (Builder.m_desc b)) other = true.
Proof.
  intros Hnz. apply edge_of_after. unfold Builder.before.
  destruct (Z.eqb_spec other 0) as [E | _]; [contradiction |].
  apply has_id_add.
Qed.

Lemma depends_on_declares_edge (b : @Builder.system_builder_i Store.api) (other : Z)
  (l : list desc) (po : Z -> Z -> bool) :
  other <> 0 ->
  edge (mk_pipeline l (Builder.world_v (Builder.depends_on other b)) po)
       other (entity (Builder.m_desc b)) = true.
Proof.
  intros Hnz. apply edge_of_depends_on. unfold Builder.depends_on.
  destruct (Z.eqb_spec other 0) as [E | _]; [contradiction |].
  apply has_id_add.
Qed.

End PlannerFacts.

(** * Properties of the executor *)
Module ExecFacts.
Import Desc Store Core PlannerFacts.

(** *** One stage: the status table and the timers *)

Lemma record_notin (f : desc -> status) :
  forall (stage : list desc) (done : gmap Z status) (e : Z),
  ~ In e (map entity stage) ->
  fold_left record_one (map (fun d => (d, f d)) stage) done !! e = done !! e.
Proof.
  induction stage as [| x stage IH]; intros done e Hn; simpl.
  - reflexivity.
  - rewrite IH by (intros H; apply Hn; right; exact H).
    unfold record_one. simpl. apply lookup_insert_ne.
    intros E. apply Hn. left. exact E.
Qed.

Lemma record_in (f : desc -> status) :
  forall (stage : list desc) (done : gmap Z status) (d : desc),
  List.NoDup (map entity stage) -> In d stage ->
  fold_left record_one (map (fun d => (d, f d)) stage) done !! entity d = Some (f d).
Proof.
  induction stage as [| x stage IH]; intros done d Hnd Hd; [destruct Hd |].
  simpl in Hnd. inversion Hnd as [| ? ? Hnx Hnd']; subst. simpl.
  destruct Hd as [-> | Hd].
  - rewrite record_notin by exact Hnx.
    unfold record_one. simpl. apply lookup_insert_eq.
  - apply IH; assumption.
Qed.

Lemma commit_static (dt : Ftime.t) (s0 : scheduler) :
  forall (rs : list (desc * status)) (s : scheduler),
  pipe (fold_left (commit_one dt s0) rs s) = pipe s
  /\ frame (fold_left (commit_one dt s0) rs s) = frame s
  /\ fmt (fold_left (commit_one dt s0) rs s) = fmt s.
Proof.
  induction rs as [| r rs IH]; intros s; simpl; [repeat split; reflexivity |].
  destruct (IH (commit_one dt s0 s r)) as (Hp & Hf & Hm). rewrite Hp, Hf, Hm.
  repeat split; reflexivity.
Qed.

Lemma commit_accum_notin (dt : Ftime.t) (s0 : scheduler) (f : desc -> status) :
  forall (stage : list desc) (s : scheduler) (e : Z),
  ~ In e (map entity stage) ->
  accum (fold_left (commit_one dt s0) (map (fun d => (d, f d)) stage) s) !! e
  = accum s !! e.
Proof.
  induction stage as [| x stage IH]; intros s e Hn; simpl.
  - reflexivity.
  - rewrite IH by (intros H; apply Hn; right; exact H).
    simpl. apply lookup_insert_ne. intros E. apply Hn. left. exact E.
Qed.

Lemma commit_accum_in (dt : Ftime.t) (s0 : scheduler) (f : desc -> status) :
  forall (stage : list desc) (s : scheduler) (d : desc),
  List.NoDup (map entity stage) -> In d stage ->
  accum (fold_left (commit_one dt s0) (map (fun d => (d, f d)) stage) s) !! entity d
  = Some (settle (fmt s) dt (acc_of s d) d (f d)).
Proof.
  induction stage as [| x stage IH]; intros s d Hnd Hd; [destruct Hd |].
  simpl in Hnd. inversion Hnd as [| ? ? Hnx Hnd']; subst. simpl.
  destruct Hd as [-> | Hd].
  - rewrite commit_accum_notin by exact Hnx. simpl. apply lookup_insert_eq.
  - rewrite (IH _ d Hnd' Hd). f_equal. f_equal.
    unfold acc_of. simpl. f_equal. apply lookup_insert_ne.
    intros E. apply Hnx. rewrite E. apply in_map. exact Hd.
Qed.

Lemma commit_ticks_notin (dt : Ftime.t) (s0 : scheduler) (f : desc -> status) :
  forall (stage : list desc) (s : scheduler) (e : Z),
  ~ In e (map entity stage) ->
  ticks (fold_left (commit_one dt s0) (map (fun d => (d, f d)) stage) s) !! e
  = ticks s !! e.
Proof.
  induction stage as [| x stage IH]; intros s e Hn; simpl.
  - reflexivity.
  - rewrite IH by (intros H; apply Hn; right; exact H).
    simpl. destruct (f x); try reflexivity.
    apply lookup_insert_ne. intros E. apply Hn. left. exact E.
Qed.

Lemma commit_ticks_in (dt : Ftime.t) (s0 : scheduler) (f : desc -> status) :
  forall (stage : list desc) (s : scheduler) (d : desc),
  List.NoDup (map entity stage) -> In d stage -> f d = Ran ->
  ticks (fold_left (commit_one dt s0) (map (fun d => (d, f d)) stage) s) !! entity d
  = Some (default 0 (ticks s !! entity d) + 1).
Proof.
  induction stage as [| x stage IH]; intros s d Hnd Hd Hran; [destruct Hd |].
  simpl in Hnd. inversion Hnd as [| ? ? Hnx Hnd']; subst. simpl.
  destruct Hd as [-> | Hd].
  - rewrite commit_ticks_notin by exact Hnx. simpl. rewrite Hran.
    apply lookup_insert_eq.
  - rewrite (IH _ d Hnd' Hd Hran). f_equal. f_equal. f_equal.
    assert (entity x <> entity d) as Hne.
    { intros E. apply Hnx. rewrite E. apply in_map. exact Hd. }
    simpl. destruct (f x); try reflexivity.
    apply lookup_insert_ne. exact Hne.
Qed.

Lemma commit_rated_notin (dt : Ftime.t) (s0 : scheduler) (f : desc -> status) :
  forall (stage : list desc) (s : scheduler) (e : Z),
  ~ In e (map entity stage) ->
  rated_at (fold_left (commit_one dt s0) (map (fun d => (d, f d)) stage) s) !! e
  = rated_at s !! e.
Proof.
  induction stage as [| x stage IH]; intros s e Hn; simpl.
  - reflexivity.
  - rewrite IH by (intros H; apply Hn; right; exact H).
    simpl. destruct (f x); try reflexivity.
    apply lookup_insert_ne. intros E. apply Hn. left. exact E.
Qed.

(** The source count remembered for a system moves only when it ran, and
    then to the count the stage was gated against. *)
Lemma commit_rated_in (dt : Ftime.t) (s0 : scheduler) (f : desc -> status) :
  forall (stage : list desc) (s : scheduler) (d : desc),
  List.NoDup (map entity stage) -> In d stage ->
  rated_at (fold_left (commit_one dt s0) (map (fun d => (d, f d)) stage) s) !! entity d
  = match f d with
    | Ran => Some (source_count s0 (tick_source d))
    | _ => rated_at s !! entity d
    end.
Proof.
  induction stage as [| x stage IH]; intros s d Hnd Hd; [destruct Hd |].
  simpl in Hnd. inversion Hnd as [| ? ? Hnx Hnd']; subst. simpl.
  destruct Hd as [-> | Hd].
  - rewrite commit_rated_notin by exact Hnx. simpl.
    destruct (f d); try reflexivity. apply lookup_insert_eq.
  - assert (entity x <> entity d) as Hne.
    { intros E. apply Hnx. rewrite E. apply in_map. exact Hd. }
    rewrite (IH _ d Hnd' Hd). destruct (f d); try reflexivity;
      simpl; destruct (f x); try reflexivity;
      apply lookup_insert_ne; exact Hne.
Qed.

(** *** A whole plan *)

Lemma run_stages_app (dt : Ftime.t) :
  forall (pre post : list (list desc)) (s : scheduler) (done : gmap Z status),
  run_stages dt (pre ++ post) s done
  = run_stages dt post (fst (run_stages dt pre s done)) (snd (run_stages dt pre s done)).
Proof.
  induction pre as [| stage pre IH]; intros post s done; simpl.
  - reflexivity.
  - apply IH.
Qed.

Lemma run_stages_static (dt : Ftime.t) :
  forall (plan : list (list desc)) (s : scheduler) (done : gmap Z status),
  pipe (fst (run_stages dt plan s done)) = pipe s
  /\ frame (fst (run_stages dt plan s done)) = frame s.
Proof.
  induction plan as [| stage plan IH]; intros s done; simpl; [split; reflexivity |].
  destruct (IH (fold_left (commit_one dt s)
                  (map (fun d => (d, decide_status dt s done d)) stage) s)
               (fold_left record_one
                  (map (fun d => (d, decide_status dt s done d)) stage) done))
    as [Hp Hf].
  rewrite Hp, Hf.
  destruct (commit_static dt s (map (fun d => (d, decide_status dt s done d)) stage) s)
    as (H1 & H2 & _).
  split; assumption.
Qed.

Lemma run_stages_fmt (dt : Ftime.t) :
  forall (plan : list (list desc)) (s : scheduler) (done : gmap Z status),
  fmt (fst (run_stages dt plan s done)) = fmt s.
Proof.
  induction plan as [| stage plan IH]; intros s done; simpl; [reflexivity |].
  rewrite IH. apply commit_static.
Qed.

(** A system that is not part of the plan keeps its entry in the status
    table and its accumulator. *)
Lemma run_stages_notin (dt : Ftime.t) :
  forall (plan : list (list desc)) (s : scheduler) (done : gmap Z status) (e : Z),
  ~ In e (map entity (concat plan)) ->
  snd (run_stages dt plan s done) !! e = done !! e
  /\ accum (fst (run_stages dt plan s done)) !! e = accum s !! e.
Proof.
  induction plan as [| stage plan IH]; intros s done e Hn; simpl; [split; reflexivity |].
  simpl in Hn. rewrite map_app in Hn.
  assert (~ In e (map entity stage)) as Hn1 by (intros H; apply Hn, in_or_app; left; exact H).
  assert (~ In e (map entity (concat plan))) as Hn2
    by (intros H; apply Hn, in_or_app; right; exact H).
  destruct (IH (fold_left (commit_one dt s)
                  (map (fun d => (d, decide_status dt s done d)) stage) s)
               (fold_left record_one
                  (map (fun d => (d, decide_status dt s done d)) stage) done)
               e Hn2) as [H1 H2].
  rewrite H1, H2. split.
  - apply record_notin. exact Hn1.
  - apply commit_accum_notin. exact Hn1.
Qed.

Lemma run_stages_ticks_notin (dt : Ftime.t) :
  forall (plan : list (list desc)) (s : scheduler) (done : gmap Z status) (e : Z),
  ~ In e (map entity (concat plan)) ->
  ticks (fst (run_stages dt plan s done)) !! e = ticks s !! e.
Proof.
  induction plan as [| stage plan IH]; intros s done e Hn; simpl; [reflexivity |].
  simpl in Hn. rewrite map_app in Hn.
  rewrite IH by (intros H; apply Hn, in_or_app; right; exact H).
  apply commit_ticks_notin. intros H. apply Hn, in_or_app. left. exact H.
Qed.

Lemma run_stages_rated_notin (dt : Ftime.t) :
  forall (plan : list (list desc)) (s : scheduler) (done : gmap Z status) (e : Z),
  ~ In e (map entity (concat plan)) ->
  rated_at (fst (run_stages dt plan s done)) !! e = rated_at s !! e.
Proof.
  induction plan as [| stage plan IH]; intros s done e Hn; simpl; [reflexivity |].
  simpl in Hn. rewrite map_app in Hn.
  rewrite IH by (intros H; apply Hn, in_or_app; right; exact H).
  apply commit_rated_notin. intros H. apply Hn, in_or_app. left. exact H.
Qed.

(** The status of a system of the plan is the one decided when its stage
    started, and its accumulator is settled once, at that stage's barrier. *)
Lemma run_stages_at (dt : Ftime.t) (pre post : list (list desc)) (stage : list desc)
  (s : scheduler) (done : gmap Z status) (d : desc) :
  List.NoDup (map entity (concat (pre ++ stage :: post))) ->
  In d stage ->
  let s_at := fst (run_stages dt pre s done) in
  let done_at := snd (run_stages dt pre s done) in
  let st := decide_status dt s_at done_at d in
  snd (run_stages dt (pre ++ stage :: post) s done) !! entity d = Some st
  /\ accum (fst (run_stages dt (pre ++ stage :: post) s done)) !! entity d
     = Some (settle (fmt s) dt (acc_of s_at d) d st)
  /\ accum s_at !! entity d = accum s !! entity d.
Proof.
  intros Hnd Hd s_at done_at st.
  rewrite concat_app, map_app in Hnd. simpl in Hnd. rewrite map_app in Hnd.
  apply (proj2 (NoDup_ListNoDup _)) in Hnd.
  apply (proj1 (NoDup_app _ _)) in Hnd. destruct Hnd as (_ & Hpre & Hnd).
  apply (proj1 (NoDup_app _ _)) in Hnd. destruct Hnd as (Hst & Hpost & _).
  apply (proj1 (NoDup_ListNoDup _)) in Hst.
  assert (entity d ∈ map entity stage) as Hdin.
  { apply list_elem_of_In, in_map, Hd. }
  assert (~ In (entity d) (map entity (concat post))) as Hn_post.
  { intros H. apply (Hpost (entity d) Hdin). apply list_elem_of_In. exact H. }
  assert (~ In (entity d) (map entity (concat pre))) as Hn_pre.
  { intros H. apply list_elem_of_In in H. apply (Hpre (entity d) H).
    apply elem_of_app. left. exact Hdin. }
  rewrite run_stages_app. fold s_at done_at. simpl.
  destruct (run_stages_notin dt post
              (fold_left (commit_one dt s_at)
                 (map (fun d => (d, decide_status dt s_at done_at d)) stage) s_at)
              (fold_left record_one
                 (map (fun d => (d, decide_status dt s_at done_at d)) stage) done_at)
              (entity d) Hn_post) as [H1 H2].
  rewrite H1, H2. repeat split.
  - apply (record_in (decide_status dt s_at done_at)); assumption.
  - rewrite (commit_accum_in dt s_at (decide_status dt s_at done_at) stage s_at d Hst Hd).
    unfold s_at at 1. rewrite run_stages_fmt. reflexivity.
  - apply (run_stages_notin dt pre s done (entity d) Hn_pre).
Qed.

(** The tick counter of a system that ran advances by one. *)
Lemma run_stages_ticks_at (dt : Ftime.t) (pre post : list (list desc)) (stage : list desc)
  (s : scheduler) (done : gmap Z status) (d : desc) :
  List.NoDup (map entity (concat (pre ++ stage :: post))) ->
  In d stage ->
  snd (run_stages dt (pre ++ stage :: post) s done) !! entity d = Some Ran ->
  ticks (fst (run_stages dt (pre ++ stage :: post) s done)) !! entity d
  = Some (default 0 (ticks s !! entity d) + 1).
Proof.
  intros Hnd Hd Hran.
  destruct (run_stages_at dt pre post stage s done d Hnd Hd) as (H1 & _ & _).
  rewrite H1 in Hran. inversion Hran as [Hdec]. clear H1 Hran.
  rewrite concat_app, map_app in Hnd. simpl in Hnd. rewrite map_app in Hnd.
  apply (proj2 (NoDup_ListNoDup _)) in Hnd.
  apply (proj1 (NoDup_app _ _)) in Hnd. destruct Hnd as (_ & Hpre & Hnd).
  apply (proj1 (NoDup_app _ _)) in Hnd. destruct Hnd as (Hst & Hpost & _).
  apply (proj1 (NoDup_ListNoDup _)) in Hst.
  assert (entity d ∈ map entity stage) as Hdin.
  { apply list_elem_of_In, in_map, Hd. }
  assert (~ In (entity d) (map entity (concat post))) as Hn_post.
  { intros H. apply (Hpost (entity d) Hdin). apply list_elem_of_In. exact H. }
  assert (~ In (entity d) (map entity (concat pre))) as Hn_pre.
  { intros H. apply list_elem_of_In in H. apply (Hpre (entity d) H).
    apply elem_of_app. left. exact Hdin. }
  rewrite run_stages_app. simpl.
  rewrite run_stages_ticks_notin by exact Hn_post.
  rewrite (commit_ticks_in dt _ _ stage _ d Hst Hd Hdec).
  rewrite (run_stages_ticks_notin dt pre s done (entity d) Hn_pre). reflexivity.
Qed.

(** The source count remembered for a system after the plan has run: the
    count its stage was gated against if it ran, the old one if not. *)
Lemma run_stages_rated_at (dt : Ftime.t) (pre post : list (list desc))
  (stage : list desc) (s : scheduler) (done : gmap Z status) (d : desc) :
  List.NoDup (map entity (concat (pre ++ stage :: post))) ->
  In d stage ->
  let s_at := fst (run_stages dt pre s done) in
  let done_at := snd (run_stages dt pre s done) in
  rated_at (fst (run_stages dt (pre ++ stage :: post) s done)) !! entity d
  = match decide_status dt s_at done_at d with
    | Ran => Some (source_count s_at (tick_source d))
    | _ => rated_at s !! entity d
    end
  /\ rated_at s_at !! entity d = rated_at s !! entity d.
Proof.
  intros Hnd Hd s_at done_at.
  rewrite concat_app, map_app in Hnd. simpl in Hnd. rewrite map_app in Hnd.
  apply (proj2 (NoDup_ListNoDup _)) in Hnd.
  apply (proj1 (NoDup_app _ _)) in Hnd. destruct Hnd as (_ & Hpre & Hnd).
  apply (proj1 (NoDup_app _ _)) in Hnd. destruct Hnd as (Hst & Hpost & _).
  apply (proj1 (NoDup_ListNoDup _)) in Hst.
  assert (entity d ∈ map entity stage) as Hdin.
  { apply list_elem_of_In, in_map, Hd. }
  assert (~ In (entity d) (map entity (concat post))) as Hn_post.
  { intros H. apply (Hpost (entity d) Hdin). apply list_elem_of_In. exact H. }
  assert (~ In (entity d) (map entity (concat pre))) as Hn_pre.
  { intros H. apply list_elem_of_In in H. apply (Hpre (entity d) H).
    apply elem_of_app. left. exact Hdin. }
  pose proof (run_stages_rated_notin dt pre s done (entity d) Hn_pre) as Hsame.
  fold s_at in Hsame. split; [| exact Hsame].
  rewrite run_stages_app. fold s_at done_at. simpl.
  rewrite run_stages_rated_notin by exact Hn_post.
  rewrite (commit_rated_in dt s_at (decide_status dt s_at done_at) stage s_at d Hst Hd).
  rewrite Hsame. reflexivity.
Qed.

Lemma in_concat_split (plan : list (list desc)) (d : desc) :
  In d (concat plan) ->
  exists pre stage post, plan = pre ++ stage :: post /\ In d stage.
Proof.
  intros H. apply in_concat in H. destruct H as (stage & Hs & Hd).
  destruct (in_split stage plan Hs) as (pre & post & E).
  exists pre, stage, post. split; assumption.
Qed.

End ExecFacts.

(** * Plans depend on the descriptors, the edges and the phase order only *)
Module AgreeFacts.
Import Desc Store Core.

Lemma existsb_same {A : Type} (f g : A -> bool) (l : list A) :
  (forall x, f x = g x) -> existsb f l = existsb g l.
Proof. intros H. induction l as [| x l IH]; simpl; [reflexivity | rewrite H, IH; reflexivity]. Qed.

Lemma forallb_same {A : Type} (f g : A -> bool) (l : list A) :
  (forall x, f x = g x) -> forallb f l = forallb g l.
Proof. intros H. induction l as [| x l IH]; simpl; [reflexivity | rewrite H, IH; reflexivity]. Qed.

Lemma find_same {A : Type} (f g : A -> bool) (l : list A) :
  (forall x, f x = g x) -> List.find f l = List.find g l.
Proof. intros H. induction l as [| x l IH]; simpl; [reflexivity | rewrite H, IH; reflexivity]. Qed.

Section Agree.
Variables p1 p2 : pipeline.
Hypothesis Hag : agree p1 p2.

Lemma edge_agree (a b : Z) : edge p1 a b = edge p2 a b.
Proof.
  destruct Hag as (_ & Hw & Hp). unfold edge. rewrite Hw, Hp. reflexivity.
Qed.

Lemma reaches_agree (f : nat) : forall a b, reaches p1 f a b = reaches p2 f a b.
Proof.
  induction f as [| f IH]; intros a b; simpl; [reflexivity |].
  destruct Hag as (Hs & _ & _). rewrite Hs.
  apply existsb_same. intros u. rewrite edge_agree, IH. reflexivity.
Qed.

Lemma cycle_participants_agree : cycle_participants p1 = cycle_participants p2.
Proof.
  unfold cycle_participants. pose proof Hag as (Hs & _ & _). rewrite Hs.
  f_equal. apply list_filter_iff. intros d. unfold on_cycle.
  rewrite Hs, reaches_agree. reflexivity.
Qed.

Lemma first_ready_agree (rem : list desc) : first_ready p1 rem = first_ready p2 rem.
Proof.
  unfold first_ready. apply find_same. intros d. unfold ready.
  apply forallb_same. intros x. rewrite edge_agree. reflexivity.
Qed.

Lemma linearize_agree (f : nat) :
  forall rem, linearize p1 f rem = linearize p2 f rem.
Proof.
  induction f as [| f IH]; intros [| x rem]; simpl; try reflexivity.
  rewrite first_ready_agree.
  destruct (first_ready p2 (x :: rem)) as [d |]; [| reflexivity].
  rewrite IH. reflexivity.
Qed.

Lemma can_join_agree (cur : list desc) (d : desc) : can_join p1 cur d = can_join p2 cur d.
Proof.
  unfold can_join. apply forallb_same. intros m. unfold compatible.
  rewrite !edge_agree. reflexivity.
Qed.

Lemma stages_from_agree :
  forall order cur, stages_from p1 cur order = stages_from p2 cur order.
Proof.
  induction order as [| d rest IH]; intros cur; simpl; [reflexivity |].
  rewrite can_join_agree, !IH. reflexivity.
Qed.

Lemma compile_agree : compile p1 = compile p2.
Proof.
  unfold compile. pose proof Hag as (Hs & _ & _).
  rewrite Hs, linearize_agree, cycle_participants_agree.
  destruct (linearize p2 (length (systems p2)) (systems p2)) as [order |];
    [| reflexivity].
  f_equal. destruct order as [| d rest]; [reflexivity |].
  simpl. apply stages_from_agree.
Qed.

End Agree.
End AgreeFacts.

(** * Compilation fails only on a cycle *)
Module CycleFacts.
Import Desc Store Core PlannerFacts.

Lemma length_drop (d : desc) (l : list desc) :
  In d l -> (length (drop d l) < length l)%nat.
Proof.
  unfold drop. induction l as [| x l IH]; intros Hd; [destruct Hd |].
  rewrite filter_cons. destruct (decide (entity x <> entity d)) as [Hne | He].
  - destruct Hd as [-> | Hd]; [congruence |]. simpl. specialize (IH Hd). lia.
  - simpl. pose proof (length_filter (fun y : desc => entity y <> entity d) l). lia.
Qed.

(** With enough fuel, [linearize] only gives up on a non-empty set of
    waiting systems none of which is ready. *)
Lemma linearize_none_stuck (p : pipeline) (f : nat) :
  forall rem, (length rem <= f)%nat -> linearize p f rem = None ->
  exists stuck, stuck <> [] /\ (forall x, In x stuck -> In x rem)
                /\ first_ready p stuck = None.
Proof.
  induction f as [| f IH]; intros rem Hlen H.
  - destruct rem; simpl in *; [discriminate | lia].
  - destruct rem as [| y rem']; [simpl in H; discriminate |].
    cbn [linearize] in H.
    destruct (first_ready p (y :: rem')) as [d |] eqn:Hf.
    + destruct (linearize p f (drop d (y :: rem'))) as [rest |] eqn:Hl; [discriminate |].
      destruct (first_ready_some p _ _ Hf) as [Hd _].
      pose proof (length_drop d _ Hd) as Hlt.
      destruct (IH (drop d (y :: rem'))) as (stuck & Hne & Hsub & Hst);
        [simpl in *; lia | exact Hl |].
      exists stuck. split; [exact Hne |]. split; [| exact Hst].
      intros x Hx. apply (in_drop d x (y :: rem')). apply Hsub. exact Hx.
    + exists (y :: rem'). split; [discriminate |]. split; [tauto | exact Hf].
Qed.

Lemma forallb_negb_false {A : Type} (g : A -> bool) (l : list A) :
  forallb (fun y => negb (g y)) l = false -> exists y, In y l /\ g y = true.
Proof.
  induction l as [| x l IH]; simpl; intros H; [discriminate |].
  destruct (g x) eqn:E.
  - exists x. split; [left; reflexivity | exact E].
  - destruct (IH H) as (y & Hy & Hg). exists y. split; [right; exact Hy | exact Hg].
Qed.

Lemma stuck_has_predecessor (p : pipeline) (stuck : list desc) (x : desc) :
  first_ready p stuck = None -> In x stuck ->
  exists y, In y stuck /\ edge p (entity y) (entity x) = true.
Proof.
  unfold first_ready. intros Hnone Hx.
  pose proof (find_none _ _ Hnone x Hx) as Hr. unfold ready in Hr.
  apply (forallb_negb_false (fun y => edge p (entity y) (entity x))). exact Hr.
Qed.

(** Walking back along predecessors gives chains of any length. *)
Lemma stuck_chain (p : pipeline) (stuck : list desc) :
  stuck <> [] -> first_ready p stuck = None ->
  forall n, exists l, length l = S n /\ chain p l /\ (forall x, In x l -> In x stuck).
Proof.
  intros Hne Hst. induction n as [| n (l & Hlen & Hch & Hsub)].
  - destruct stuck as [| d stuck']; [congruence |].
    exists [d]. split; [reflexivity |]. split; [exact I |].
    intros x [-> | []]. left. reflexivity.
  - destruct l as [| h l']; [discriminate |].
    destruct (stuck_has_predecessor p stuck h Hst (Hsub h (or_introl eq_refl)))
      as (y & Hy & He).
    exists (y :: h :: l'). split; [simpl in *; lia |]. split.
    + split; [exact He | exact Hch].
    + intros x [-> | Hx]; [exact Hy | apply Hsub; exact Hx].
Qed.

(** A list of entities with a repetition splits around it. *)
Lemma repeated_entity (l : list desc) :
  ~ List.NoDup (map entity l) ->
  exists l1 a l2 b l3, l = l1 ++ a :: l2 ++ b :: l3 /\ entity a = entity b.
Proof.
  induction l as [| x l IH]; intros Hnd.
  - exfalso. apply Hnd. constructor.
  - destruct (in_dec Z.eq_dec (entity x) (map entity l)) as [Hin | Hn].
    + apply in_map_iff in Hin. destruct Hin as (b & Eb & Hb).
      destruct (in_split b l Hb) as (l2 & l3 & ->).
      exists [], x, l2, b, l3. split; [reflexivity | congruence].
    + destruct IH as (l1 & a & l2 & b & l3 & -> & E).
      { intros H. apply Hnd. simpl. constructor; assumption. }
      exists (x :: l1), a, l2, b, l3. split; [reflexivity | exact E].
Qed.

Lemma chain_app_r (p : pipeline) (l1 l2 : list desc) :
  chain p (l1 ++ l2) -> chain p l2.
Proof.
  induction l1 as [| x l1 IH]; intros H; [exact H |].
  apply IH. destruct l1 as [| y l1']; simpl in H.
  - destruct l2; [exact I | apply H].
  - apply H.
Qed.

Lemma reaches_S (p : pipeline) (f : nat) (a b : Z) :
  reaches p (S f) a b
  = existsb (fun u => edge p a (entity u)
                      && ((entity u =? b) || reaches p f (entity u) b))
            (systems p).
Proof. reflexivity. Qed.

Lemma reaches_more (p : pipeline) (f : nat) :
  forall a b, reaches p f a b = true -> reaches p (S f) a b = true.
Proof.
  induction f as [| f IH]; intros a b H; [discriminate |].
  rewrite reaches_S in H. rewrite reaches_S.
  apply existsb_exists in H. destruct H as (u & Hu & H).
  apply existsb_exists. exists u. split; [exact Hu |].
  apply andb_true_iff in H. destruct H as [He H]. rewrite He.
  apply orb_true_iff in H. destruct H as [H | H].
  - rewrite H. reflexivity.
  - rewrite (IH _ _ H). rewrite orb_true_r. reflexivity.
Qed.

Lemma reaches_le (p : pipeline) (f g : nat) (a b : Z) :
  (f <= g)%nat -> reaches p f a b = true -> reaches p g a b = true.
Proof.
  intros Hle H. induction Hle as [| g Hle IH]; [exact H |].
  apply reaches_more. exact IH.
Qed.

(** A chain from [a] through [m] to [b] is a path of [S (length m)] edges. *)
Lemma chain_reaches (p : pipeline) :
  forall (m : list desc) (a b : desc),
  chain p (a :: m ++ [b]) ->
  (forall x, In x (m ++ [b]) -> In x (systems p)) ->
  reaches p (S (length m)) (entity a) (entity b) = true.
Proof.
  induction m as [| x m IH]; intros a b Hch Hsub.
  - simpl in Hch. destruct Hch as [He _].
    apply reaches_one; [apply Hsub; left; reflexivity | exact He].
  - simpl app in Hch. destruct Hch as [He Hch].
    simpl length. rewrite reaches_S.
    apply existsb_exists. exists x. split; [apply Hsub; left; reflexivity |].
    rewrite He, (IH x b Hch); [rewrite orb_true_r; reflexivity |].
    intros y Hy. apply Hsub. right. exact Hy.
Qed.

(** Among waiting systems none of which is ready, one lies on a cycle. *)
Lemma stuck_on_cycle (p : pipeline) (stuck : list desc) :
  stuck <> [] -> (forall x, In x stuck -> In x (systems p)) ->
  first_ready p stuck = None ->
  exists d, In d (systems p) /\ on_cycle p d = true.
Proof.
  intros Hne Hsub Hst.
  destruct (stuck_chain p stuck Hne Hst (length (systems p))) as (l & Hlen & Hch & Hl).
  assert (~ List.NoDup (map entity l)) as Hnd.
  { intros Hnd.
    assert (incl (map entity l) (map entity (systems p))) as Hincl.
    { intros e He. apply in_map_iff in He. destruct He as (x & <- & Hx).
      apply in_map. apply Hsub, Hl, Hx. }
    pose proof (NoDup_incl_length Hnd Hincl) as Hle.
    rewrite !length_map in Hle. lia. }
  destruct (repeated_entity l Hnd) as (l1 & a & l2 & b & l3 & -> & E).
  exists a. split.
  { apply Hsub, Hl. apply in_or_app. right. left. reflexivity. }
  unfold on_cycle. rewrite E at 2.
  apply (reaches_le p (S (length l2))).
  - rewrite !length_app in Hlen. simpl in Hlen. rewrite length_app in Hlen.
    simpl in Hlen. lia.
  - apply chain_reaches.
    + apply chain_app_r in Hch.
      replace (a :: l2 ++ b :: l3) with ((a :: l2 ++ [b]) ++ l3) in Hch
        by (simpl; rewrite <- app_assoc; reflexivity).
      clear - Hch. revert Hch. generalize (a :: l2 ++ [b]) as m.
      induction m as [| x m IH]; intros H; [exact I |].
      destruct m as [| y m']; [exact I |].
      simpl in H. destruct H as [He H]. split; [exact He |]. apply IH. exact H.
    + intros x Hx. apply Hsub, Hl. apply in_or_app. right. right.
      apply in_app_or in Hx. apply in_or_app.
      destruct Hx as [Hx | [-> | []]]; [left; exact Hx | right; left; reflexivity].
Qed.

(** Plan compilation either produces a plan or reports a cycle that
    names at least one system. *)
Lemma compile_total (p : pipeline) :
  (exists plan, compile p = Ok plan)
  \/ (compile p = Err (CyclicDependency (cycle_participants p))
      /\ cycle_participants p <> []).
Proof.
  unfold compile.
  destruct (linearize p (length (systems p)) (systems p)) as [order |] eqn:H.
  - left. exists (partition p order). reflexivity.
  - right. split; [reflexivity |].
    destruct (linearize_none_stuck p _ _ (le_n _) H) as (stuck & Hne & Hsub & Hst).
    destruct (stuck_on_cycle p stuck Hne Hsub Hst) as (d & Hd & Hc).
    pose proof (on_cycle_participant p d Hd Hc) as Hin.
    intros E. rewrite E in Hin. destruct Hin.
Qed.

End CycleFacts.

(** * The planner meets its contract, and the contract fixes the plan *)
Module ContractFacts.
Import Desc Store Core PlannerFacts AgreeFacts CycleFacts.

(** *** Placement *)

Lemma is_placed_true (placed : list desc) (x : desc) :
  is_placed placed x = true <-> entity x ∈ map entity placed.
Proof.
  unfold is_placed. rewrite existsb_exists, list_elem_of_In, in_map_iff. split.
  - intros (y & Hy & E). apply Z.eqb_eq in E. exists y. split; assumption.
  - intros (y & E & Hy). exists y. split; [exact Hy | apply Z.eqb_eq; exact E].
Qed.

Lemma is_placed_false (placed : list desc) (x : desc) :
  is_placed placed x = false <-> entity x ∉ map entity placed.
Proof.
  rewrite <- is_placed_true. destruct (is_placed placed x); split; intros H;
    try reflexivity; try discriminate; try (intros H'; discriminate H').
  exfalso. apply H. reflexivity.
Qed.

Lemma is_placed_entity (placed : list desc) (a b : desc) :
  entity a = entity b -> is_placed placed a = is_placed placed b.
Proof. intros E. unfold is_placed. rewrite E. reflexivity. Qed.

Lemma placeable_entity (p : pipeline) (placed : list desc) (a b : desc) :
  entity a = entity b -> placeable p placed a = placeable p placed b.
Proof.
  intros E. unfold placeable. rewrite (is_placed_entity placed a b E), E. reflexivity.
Qed.

Lemma in_unplaced (p : pipeline) (placed : list desc) (x : desc) :
  In x (unplaced p placed) <-> (entity x ∉ map entity placed) /\ In x (systems p).
Proof.
  unfold unplaced. rewrite <- !list_elem_of_In.
  apply (list_elem_of_filter (fun y : desc => entity y ∉ map entity placed)).
Qed.

(** Readiness among the waiting systems, read on the whole registration
    list. *)
Lemma ready_unplaced (p : pipeline) (placed : list desc) (x : desc) :
  ready p (unplaced p placed) x
  = forallb (fun y => is_placed placed y || negb (edge p (entity y) (entity x)))
            (systems p).
Proof.
  unfold ready, unplaced. induction (systems p) as [| y l IH]; [reflexivity |].
  rewrite filter_cons. simpl.
  destruct (decide (entity y ∉ map entity placed)) as [Hn | Hy].
  - simpl. rewrite IH. apply is_placed_false in Hn. rewrite Hn. reflexivity.
  - rewrite IH.
    assert (is_placed placed y = true) as ->; [| reflexivity].
    destruct (is_placed placed y) eqn:E; [reflexivity |].
    exfalso. apply Hy. apply is_placed_false. exact E.
Qed.

Lemma find_filter {A : Type} (P : A -> Prop) `{!forall x, Decision (P x)}
  (f : A -> bool) (l : list A) :
  List.find f (filter P l) = List.find (fun x => bool_decide (P x) && f x) l.
Proof.
  induction l as [| x l IH]; [reflexivity |].
  rewrite filter_cons. simpl. destruct (decide (P x)) as [Hp | Hn].
  - rewrite (bool_decide_eq_true_2 _ Hp). simpl. rewrite IH. reflexivity.
  - rewrite (bool_decide_eq_false_2 _ Hn). simpl. exact IH.
Qed.

(** The first ready system among the waiting ones is the first placeable
    system of the registration list. *)
Lemma first_ready_placeable (p : pipeline) (placed : list desc) :
  first_ready p (unplaced p placed) = List.find (placeable p placed) (systems p).
Proof.
  unfold first_ready. unfold unplaced at 2. rewrite find_filter.
  apply find_same. intros x. unfold placeable. rewrite ready_unplaced. f_equal.
  destruct (is_placed placed x) eqn:E.
  - apply bool_decide_eq_false_2. intros Hn. apply is_placed_false in Hn. congruence.
  - apply bool_decide_eq_true_2. apply is_placed_false. exact E.
Qed.

(** *** Registration rank *)

Section Rank.
Variable f : desc -> bool.
Hypothesis f_entity : forall a b, entity a = entity b -> f a = f b.

(** What [find] returns has the least rank among the elements that pass
    the test. *)
Lemma find_least :
  forall (l : list desc) (d : desc), List.find f l = Some d ->
  forall x, In x l -> f x = true -> (rank l (entity d) <= rank l (entity x))%nat.
Proof.
  induction l as [| a l IH]; intros d Hfind x Hx Hfx; [destruct Hx |].
  simpl in Hfind. destruct (f a) eqn:Ea.
  - inversion Hfind; subst d. simpl. rewrite Z.eqb_refl. lia.
  - assert (forall y, f y = true -> (entity a =? entity y) = false) as Hne.
    { intros y Hy. apply Z.eqb_neq. intros E. rewrite (f_entity a y E) in Ea. congruence. }
    destruct (find_some _ _ Hfind) as [Hd Hfd].
    destruct Hx as [-> | Hx]; [congruence |].
    simpl. rewrite (Hne d Hfd), (Hne x Hfx).
    apply le_n_S. apply IH; assumption.
Qed.

Lemma same_entity_same_system (l : list desc) (a b : desc) :
  List.NoDup (map entity l) -> In a l -> In b l -> entity a = entity b -> a = b.
Proof.
  induction l as [| y l IH]; intros Hnd Ha Hb E; [destruct Ha |].
  simpl in Hnd. inversion Hnd as [| ? ? Hny Hnd']; subst.
  destruct Ha as [-> | Ha], Hb as [-> | Hb].
  - reflexivity.
  - exfalso. apply Hny. rewrite E. apply in_map. exact Hb.
  - exfalso. apply Hny. rewrite <- E. apply in_map. exact Ha.
  - apply IH; assumption.
Qed.

(** With distinct identities, an element of least rank among those that
    pass the test is what [find] returns. *)
Lemma least_find :
  forall (l : list desc) (d : desc),
  List.NoDup (map entity l) -> In d l -> f d = true ->
  (forall x, In x l -> f x = true -> (rank l (entity d) <= rank l (entity x))%nat) ->
  List.find f l = Some d.
Proof.
  induction l as [| a l IH]; intros d Hnd Hd Hfd Hmin; [destruct Hd |].
  simpl. destruct (f a) eqn:Ea.
  - specialize (Hmin a (or_introl eq_refl) Ea). simpl in Hmin.
    rewrite Z.eqb_refl in Hmin.
    destruct (Z.eqb_spec (entity a) (entity d)) as [E | N]; [| lia].
    f_equal. apply (same_entity_same_system (a :: l)); auto. left. reflexivity.
  - assert (forall y, f y = true -> (entity a =? entity y) = false) as Hne.
    { intros y Hy. apply Z.eqb_neq. intros E. rewrite (f_entity a y E) in Ea. congruence. }
    destruct Hd as [-> | Hd]; [congruence |].
    simpl in Hnd. inversion Hnd as [| ? ? _ Hnd']; subst.
    apply IH; try assumption.
    intros x Hx Hfx. specialize (Hmin x (or_intror Hx) Hfx). simpl in Hmin.
    rewrite (Hne d Hfd), (Hne x Hfx) in Hmin. lia.
Qed.

End Rank.

(** *** Tie-break: the planner's choice and the contract coincide *)

Lemma tie_broken_least (p : pipeline) (placed : list desc) (d : desc) :
  tie_broken p placed d = true
  <-> placeable p placed d = true
      /\ forall x, In x (systems p) -> placeable p placed x = true ->
         (rank (systems p) (entity d) <= rank (systems p) (entity x))%nat.
Proof.
  unfold tie_broken. rewrite andb_true_iff, forallb_forall. split.
  - intros [Hd Hmin]. split; [exact Hd |]. intros x Hx Hpx.
    specialize (Hmin x Hx). rewrite Hpx in Hmin. simpl in Hmin.
    apply Nat.leb_le. exact Hmin.
  - intros [Hd Hmin]. split; [exact Hd |]. intros x Hx.
    destruct (placeable p placed x) eqn:Hpx; [| reflexivity].
    simpl. apply Nat.leb_le. apply Hmin; assumption.
Qed.

Lemma first_ready_tie_broken (p : pipeline) (placed : list desc) (d : desc) :
  first_ready p (unplaced p placed) = Some d -> tie_broken p placed d = true.
Proof.
  rewrite first_ready_placeable. intros Hfind. apply tie_broken_least.
  destruct (find_some _ _ Hfind) as [_ Hd]. split; [exact Hd |].
  apply (find_least (placeable p placed) (placeable_entity p placed) _ _ Hfind).
Qed.

Lemma tie_broken_first_ready (p : pipeline) (placed : list desc) (d : desc) :
  List.NoDup (map entity (systems p)) -> In d (systems p) ->
  tie_broken p placed d = true -> first_ready p (unplaced p placed) = Some d.
Proof.
  intros Hnd Hd Htb. apply tie_broken_least in Htb. destruct Htb as [Hpd Hmin].
  rewrite first_ready_placeable.
  apply (least_find (placeable p placed) (placeable_entity p placed)); assumption.
Qed.

Lemma drop_unplaced (p : pipeline) (placed : list desc) (d : desc) :
  drop d (unplaced p placed) = unplaced p (placed ++ [d]).
Proof.
  unfold drop, unplaced. rewrite list_filter_filter. apply list_filter_iff.
  intros x. rewrite map_app. simpl. rewrite not_elem_of_app, not_elem_of_cons.
  split.
  - intros [H1 H2]. split; [exact H2 |]. split; [exact H1 | apply not_elem_of_nil].
  - intros [H1 [H2 _]]. split; assumption.
Qed.

(** *** The linear order *)

Lemma by_registration_splits (p : pipeline) :
  forall (rest placed : list desc),
  (forall l1 d l2, rest = l1 ++ d :: l2 -> tie_broken p (placed ++ l1) d = true) ->
  forallb (is_placed (placed ++ rest)) (systems p) = true ->
  by_registration_from p placed rest = true.
Proof.
  induction rest as [| d rest IH]; intros placed Hall Hend; simpl.
  - rewrite app_nil_r in Hend. exact Hend.
  - apply andb_true_iff. split.
    + specialize (Hall [] d rest eq_refl). rewrite app_nil_r in Hall. exact Hall.
    + apply IH.
      * intros l1 x l2 E. rewrite <- app_assoc. simpl.
        apply (Hall (d :: l1) x l2). rewrite E. reflexivity.
      * rewrite <- app_assoc. exact Hend.
Qed.

(** The order the planner computes meets the contract. *)
Lemma linearize_by_registration (p : pipeline) (order : list desc) :
  linearize p (length (systems p)) (systems p) = Some order ->
  by_registration p order = true.
Proof.
  intros Hl. unfold by_registration. apply by_registration_splits.
  - intros l1 d l2 E. simpl. apply first_ready_tie_broken.
    apply (linearize_first_ready p _ _ _ Hl l1 d l2 E).
  - simpl. apply forallb_forall. intros x Hx. apply is_placed_true.
    destruct (linearize_complete p _ _ _ Hl x Hx) as (x' & Hx' & E).
    rewrite <- E. apply list_elem_of_In, in_map. exact Hx'.
Qed.

Lemma all_placed_none_waits (p : pipeline) (placed : list desc) :
  forallb (is_placed placed) (systems p) = true -> unplaced p placed = [].
Proof.
  intros H. rewrite forallb_forall in H.
  destruct (unplaced p placed) as [| x l] eqn:E; [reflexivity |].
  assert (In x (unplaced p placed)) as Hx by (rewrite E; left; reflexivity).
  apply in_unplaced in Hx. destruct Hx as [Hn Hx].
  specialize (H x Hx). apply is_placed_true in H. contradiction.
Qed.

Lemma linearize_step (p : pipeline) (f : nat) (rem : list desc) (d : desc) :
  first_ready p rem = Some d ->
  linearize p (S f) rem
  = match linearize p f (drop d rem) with
    | None => None
    | Some rest => Some (d :: rest)
    end.
Proof.
  intros H. destruct (first_ready_some p rem d H) as [Hin _].
  destruct rem as [| y rem]; [destruct Hin |].
  simpl linearize at 1. rewrite H. reflexivity.
Qed.

(** An order that meets the contract is the order the planner computes. *)
Lemma by_registration_linearize (p : pipeline) :
  List.NoDup (map entity (systems p)) ->
  forall (order placed : list desc) (fuel : nat),
  Forall (fun d => In d (systems p)) order ->
  by_registration_from p placed order = true ->
  (length (unplaced p placed) <= fuel)%nat ->
  linearize p fuel (unplaced p placed) = Some order.
Proof.
  intros Hnd. induction order as [| d rest IH]; intros placed fuel Hreg Hby Hfuel.
  - simpl in Hby. rewrite (all_placed_none_waits p placed Hby).
    destruct fuel; reflexivity.
  - simpl in Hby. apply andb_true_iff in Hby. destruct Hby as [Htb Hrest].
    apply Forall_cons in Hreg. destruct Hreg as [Hd Hreg].
    pose proof (tie_broken_first_ready p placed d Hnd Hd Htb) as Hfirst.
    destruct (first_ready_some p _ d Hfirst) as [Hin _].
    pose proof (length_drop d _ Hin) as Hlen.
    destruct fuel as [| fuel]; [lia |].
    rewrite (linearize_step p fuel _ d Hfirst), drop_unplaced.
    rewrite (IH (placed ++ [d]) fuel Hreg Hrest); [reflexivity |].
    rewrite <- drop_unplaced. lia.
Qed.

(** *** The stages *)

Lemma conflict_free_snoc (p : pipeline) (d : desc) :
  forall cur, conflict_free p (cur ++ [d]) = conflict_free p cur && can_join p cur d.
Proof.
  unfold can_join. induction cur as [| a cur IH]; simpl; [reflexivity |].
  rewrite forallb_app, IH. simpl.
  destruct (forallb (compatible p a) cur), (compatible p a d),
    (conflict_free p cur), (forallb (fun m => compatible p m d) cur); reflexivity.
Qed.

Lemma conflict_free_pair (p : pipeline) (d m : desc) (l2 : list desc) :
  forall l1, conflict_free p (l1 ++ d :: l2) = true -> In m l1 ->
  compatible p m d = true.
Proof.
  induction l1 as [| a l1 IH]; intros H Hm; [destruct Hm |].
  simpl in H. apply andb_true_iff in H. destruct H as [Ha H].
  destruct Hm as [-> | Hm]; [| apply IH; assumption].
  rewrite forallb_forall in Ha. apply Ha. apply in_or_app. right. left. reflexivity.
Qed.

Lemma maximal_stages_cons (p : pipeline) (stage : list desc) (rest : list (list desc)) :
  maximal_stages p (stage :: rest)
  = negb (Nat.eqb (length stage) 0) && conflict_free p stage
    && match rest with
       | [] => true
       | next :: _ => forced p stage next
       end
    && maximal_stages p rest.
Proof. reflexivity. Qed.

Lemma stages_from_shape (p : pipeline) :
  forall order cur, exists t rest, stages_from p cur order = (cur ++ t) :: rest.
Proof.
  induction order as [| d order IH]; intros cur; simpl.
  - exists [], []. rewrite app_nil_r. reflexivity.
  - destruct (can_join p cur d).
    + destruct (IH (cur ++ [d])) as (t & rest & E). exists (d :: t), rest.
      rewrite E, <- app_assoc. reflexivity.
    + exists [], (stages_from p [d] order). rewrite app_nil_r. reflexivity.
Qed.

Lemma forced_not_joinable (p : pipeline) (cur t : list desc) (d : desc) :
  forced p cur (d :: t) = negb (can_join p cur d).
Proof.
  unfold forced, can_join. induction cur as [| m cur IH]; simpl; [reflexivity |].
  rewrite IH. destruct (compatible p m d); reflexivity.
Qed.

Lemma stages_from_maximal (p : pipeline) :
  forall order cur, cur <> [] -> conflict_free p cur = true ->
  maximal_stages p (stages_from p cur order) = true.
Proof.
  induction order as [| d order IH]; intros cur Hne Hcf; simpl.
  - rewrite Hcf. destruct cur; [congruence | reflexivity].
  - destruct (can_join p cur d) eqn:Hj.
    + apply IH; [destruct cur; discriminate |].
      rewrite conflict_free_snoc, Hcf, Hj. reflexivity.
    + pose proof (IH [d] ltac:(discriminate) eq_refl) as Hmax.
      rewrite maximal_stages_cons, Hcf, Hmax.
      destruct (stages_from_shape p order [d]) as (t & rest & ->).
      change ([d] ++ t) with (d :: t). rewrite forced_not_joinable, Hj.
      destruct cur; [congruence | reflexivity].
Qed.

(** The stage sequence the planner outputs meets the contract. *)
Lemma partition_maximal (p : pipeline) (order : list desc) :
  maximal_stages p (partition p order) = true.
Proof.
  destruct order as [| d rest]; [reflexivity |].
  apply stages_from_maximal; [discriminate | reflexivity].
Qed.

Lemma maximal_stages_inv (p : pipeline) (stage : list desc) (rest : list (list desc)) :
  maximal_stages p (stage :: rest) = true ->
  stage <> [] /\ conflict_free p stage = true
  /\ (forall next more, rest = next :: more -> forced p stage next = true)
  /\ maximal_stages p rest = true.
Proof.
  rewrite maximal_stages_cons, !andb_true_iff. intros [[[H1 H2] H3] H4].
  split; [destruct stage; [discriminate H1 | discriminate] |].
  split; [exact H2 |]. split; [| exact H4].
  intros next more ->. exact H3.
Qed.

(** A stage cannot run past a needed boundary. *)
Lemma boundary_is_respected (p : pipeline) (st st' : list desc) (x : desc)
  (l : list desc) (rest : list (list desc)) :
  maximal_stages p (st :: rest) = true ->
  conflict_free p st' = true ->
  st' = st ++ x :: l ->
  forall tail, concat rest = x :: tail -> False.
Proof.
  intros Hmax Hcf -> tail Hconcat.
  apply maximal_stages_inv in Hmax. destruct Hmax as (_ & _ & Hforced & Hrest).
  destruct rest as [| next more]; [discriminate Hconcat |].
  specialize (Hforced next more eq_refl).
  apply maximal_stages_inv in Hrest. destruct Hrest as (Hne & _).
  destruct next as [| y next]; [congruence |].
  simpl in Hconcat. inversion Hconcat; subst y.
  unfold forced in Hforced. apply existsb_exists in Hforced.
  destruct Hforced as (m & Hm & Hnot).
  rewrite (conflict_free_pair p x m l st Hcf Hm) in Hnot. discriminate Hnot.
Qed.

(** Two stage sequences that meet the contract and cut the same linear
    order are the same. *)
Lemma maximal_stages_unique (p : pipeline) :
  forall plan plan' : list (list desc),
  maximal_stages p plan = true -> maximal_stages p plan' = true ->
  concat plan = concat plan' -> plan = plan'.
Proof.
  induction plan as [| st rest IH]; intros plan' Hm Hm' Hc.
  - destruct plan' as [| st' rest']; [reflexivity |].
    apply maximal_stages_inv in Hm'. destruct Hm' as (Hne & _).
    simpl in Hc. destruct st'; [congruence | discriminate Hc].
  - destruct plan' as [| st' rest'].
    + apply maximal_stages_inv in Hm. destruct Hm as (Hne & _).
      simpl in Hc. destruct st; [congruence | discriminate Hc].
    + simpl in Hc. destruct (app_eq_app _ _ _ _ Hc) as (l & [[E1 E2] | [E1 E2]]).
      * destruct l as [| x l].
        -- rewrite app_nil_r in E1. simpl in E2. subst st'.
           f_equal. apply maximal_stages_inv in Hm, Hm'.
           apply IH; [apply Hm | apply Hm' | symmetry; exact E2].
        -- exfalso.
           apply (boundary_is_respected p st' st x l rest' Hm'
                    (proj1 (proj2 (maximal_stages_inv p st rest Hm))) E1
                    (l ++ concat rest)).
           exact E2.
      * destruct l as [| x l].
        -- rewrite app_nil_r in E1. simpl in E2. subst st'.
           f_equal. apply maximal_stages_inv in Hm, Hm'.
           apply IH; [apply Hm | apply Hm' | exact E2].
        -- exfalso.
           apply (boundary_is_respected p st st' x l rest Hm
                    (proj1 (proj2 (maximal_stages_inv p st' rest' Hm'))) E1
                    (l ++ concat rest')).
           exact E2.
Qed.

(** *** The plan *)

Lemma compile_meets_contract (p : pipeline) (plan : list (list desc)) :
  compile p = Ok plan ->
  by_registration p (concat plan) = true /\ maximal_stages p plan = true.
Proof.
  intros Hc. destruct (compile_ok p plan Hc) as (order & Hl & ->).
  rewrite concat_partition. split.
  - apply linearize_by_registration. exact Hl.
  - apply partition_maximal.
Qed.

Lemma contract_fixes_plan (p : pipeline) (plan plan' : list (list desc)) :
  List.NoDup (map entity (systems p)) ->
  compile p = Ok plan ->
  Forall (fun d => In d (systems p)) (concat plan') ->
  by_registration p (concat plan') = true ->
  maximal_stages p plan' = true ->
  plan' = plan.
Proof.
  intros Hnd Hc Hreg Hby Hmax.
  destruct (compile_meets_contract p plan Hc) as [_ Hmax0].
  destruct (compile_ok p plan Hc) as (order & Hl & E).
  apply (maximal_stages_unique p); try assumption.
  rewrite E, concat_partition.
  pose proof (by_registration_linearize p Hnd (concat plan') [] (length (systems p))
                Hreg Hby) as Hl'.
  rewrite unplaced_nil in Hl'. specialize (Hl' (Nat.le_refl _)).
  rewrite Hl in Hl'. inversion Hl'. reflexivity.
Qed.

End ContractFacts.

(** * One tick, seen from a single system *)
Module TickFacts.
Import Desc Store Core PlannerFacts ExecFacts.

Lemma plan_covers (p : pipeline) (plan : list (list desc)) (d : desc) :
  compile p = Ok plan -> In d (systems p) ->
  exists d', In d' (concat plan) /\ entity d' = entity d.
Proof.
  intros Hc Hd. destruct (compile_ok p plan Hc) as (order & Hl & ->).
  rewrite concat_partition. apply (linearize_complete p _ _ _ Hl d Hd).
Qed.

Lemma plan_keeps (p : pipeline) (plan : list (list desc)) (d : desc) :
  List.NoDup (map entity (systems p)) ->
  compile p = Ok plan -> In d (systems p) -> In d (concat plan).
Proof.
  intros Hnd Hc Hd. destruct (compile_ok p plan Hc) as (order & Hl & ->).
  rewrite concat_partition. apply (linearize_keeps p _ _ _ d Hnd Hl Hd).
Qed.

Lemma plan_nodup (p : pipeline) (plan : list (list desc)) :
  compile p = Ok plan -> List.NoDup (map entity (concat plan)).
Proof.
  intros Hc. destruct (compile_ok p plan Hc) as (order & Hl & ->).
  rewrite concat_partition. apply (linearize_nodup p _ _ _ Hl).
Qed.

Lemma plan_sorted (p : pipeline) (plan : list (list desc)) :
  compile p = Ok plan -> no_back_edge p (concat plan) /\ Forall (apart p) plan.
Proof.
  intros Hc. destruct (compile_ok p plan Hc) as (order & Hl & ->). split.
  - rewrite concat_partition. apply (linearize_sorted p _ _ _ Hl).
  - apply partition_apart.
Qed.

(** A tick keeps the pipeline and advances the per-tick counter by one. *)
Lemma tick_static (dt : Ftime.t) (s s' : scheduler) (st : gmap Z status) :
  tick dt s = Ok (s', st) -> pipe s' = pipe s /\ frame s' = frame s + 1.
Proof.
  unfold tick. destruct (compile (pipe s)) as [plan | e]; [| discriminate].
  intros H. inversion H as [Hrun].
  destruct (run_stages_static dt plan (advance dt s) ∅) as [Hp Hf].
  rewrite Hrun in Hp, Hf. simpl in Hp, Hf. split; assumption.
Qed.

Lemma tick_fmt (dt : Ftime.t) (s s' : scheduler) (st : gmap Z status) :
  tick dt s = Ok (s', st) -> fmt s' = fmt s.
Proof.
  unfold tick. destruct (compile (pipe s)) as [plan | e]; [| discriminate].
  intros H. inversion H as [Hrun].
  pose proof (run_stages_fmt dt plan (advance dt s) ∅) as Hm.
  rewrite Hrun in Hm. exact Hm.
Qed.

Lemma deps_ok_no_dependency (s : scheduler) (done : gmap Z status) (d : desc) :
  no_dependency (pipe s) d = true -> deps_ok s done d = true.
Proof.
  unfold no_dependency, deps_ok. intros H.
  rewrite forallb_forall in H. apply forallb_forall. intros x Hx.
  specialize (H x Hx). apply negb_true_iff in H. rewrite H. reflexivity.
Qed.

Lemma deps_ok_free (s : scheduler) (done : gmap Z status) (d : desc) :
  independent (pipe s) d = true -> deps_ok s done d = true.
Proof.
  unfold independent. intros H. apply andb_true_iff in H. destruct H as [_ H].
  apply deps_ok_no_dependency. exact H.
Qed.

Lemma rate_ok_free (s : scheduler) (d : desc) :
  independent (pipe s) d = true ->
  rate_ok s d
  = (rate d <=? 0) || ((frame s mod rate d =? 0) && negb (frame s =? last_of s d)).
Proof.
  unfold independent, rate_ok. intros H. apply andb_true_iff in H. destruct H as [H _].
  apply orb_true_iff in H. destruct H as [H | H].
  - rewrite H. reflexivity.
  - apply Z.eqb_eq in H. rewrite H. reflexivity.
Qed.

Lemma run_ticks_static :
  forall (dts : list Ftime.t) (s s' : scheduler) (sts : list (gmap Z status)),
  run_ticks dts s = Ok (s', sts) -> pipe s' = pipe s.
Proof.
  induction dts as [| dt dts IH]; intros s s' sts H; simpl in H.
  - inversion H. reflexivity.
  - destruct (tick dt s) as [[s1 st] | e] eqn:Ht; [| discriminate].
    destruct (run_ticks dts s1) as [[s2 sts2] | e'] eqn:Hr; [| discriminate].
    inversion H; subst. rewrite (IH _ _ _ Hr).
    apply (tick_static dt s s1 st Ht).
Qed.

(** What an independent system reads is fixed when the tick starts. *)
Lemma decide_independent (dt : Ftime.t) (s1 s2 : scheduler) (done1 done2 : gmap Z status)
  (d : desc) :
  pipe s1 = pipe s2 -> frame s1 = frame s2 -> fmt s1 = fmt s2 ->
  accum s1 !! entity d = accum s2 !! entity d ->
  rated_at s1 !! entity d = rated_at s2 !! entity d ->
  independent (pipe s1) d = true ->
  decide_status dt s1 done1 d = decide_status dt s2 done2 d.
Proof.
  intros Hp Hf Hm Ha Hr Hind. unfold decide_status.
  rewrite (deps_ok_free s1 done1 d Hind), (rate_ok_free s1 d Hind).
  rewrite Hp in Hind.
  rewrite (deps_ok_free s2 done2 d Hind), (rate_ok_free s2 d Hind).
  assert (interval_ok dt s1 d = interval_ok dt s2 d) as ->.
  { unfold interval_ok, acc_of. rewrite Ha, Hm. reflexivity. }
  unfold last_of. rewrite Hr, Hf. reflexivity.
Qed.

(** The tick of an independent system: its status is what gating decides
    at the start of the tick, and its accumulator is settled once. *)
Lemma tick_independent (dt : Ftime.t) (s : scheduler) (plan : list (list desc)) (d : desc) :
  compile (pipe s) = Ok plan ->
  List.NoDup (map entity (systems (pipe s))) ->
  In d (systems (pipe s)) ->
  independent (pipe s) d = true ->
  exists s' st,
    tick dt s = Ok (s', st)
    /\ pipe s' = pipe s
    /\ frame s' = frame s + 1
    /\ fmt s' = fmt s
    /\ st !! entity d = Some (decide_status dt (advance dt s) ∅ d)
    /\ accum s' !! entity d
       = Some (settle (fmt s) dt (acc_of s d) d (decide_status dt (advance dt s) ∅ d)).
Proof.
  intros Hc Hnd Hd Hind.
  assert (tick dt s = Ok (run_stages dt plan (advance dt s) ∅)) as Ht.
  { unfold tick. rewrite Hc. reflexivity. }
  destruct (run_stages dt plan (advance dt s) ∅) as [s' st] eqn:Hrun.
  exists s', st.
  destruct (tick_static dt s s' st Ht) as [Hp Hf].
  split; [exact Ht |]. split; [exact Hp |]. split; [exact Hf |].
  split; [exact (tick_fmt dt s s' st Ht) |].
  pose proof (plan_keeps (pipe s) plan d Hnd Hc Hd) as Hin.
  destruct (in_concat_split plan d Hin) as (pre & stage & post & Hsplit & Hds).
  pose proof (plan_nodup (pipe s) plan Hc) as Hnodup. rewrite Hsplit in Hnodup.
  destruct (run_stages_at dt pre post stage (advance dt s) ∅ d Hnodup Hds)
    as (H1 & H2 & H3).
  destruct (run_stages_rated_at dt pre post stage (advance dt s) ∅ d Hnodup Hds)
    as (_ & H4).
  rewrite <- Hsplit, Hrun in H1, H2. simpl in H1, H2.
  destruct (run_stages_static dt pre (advance dt s) ∅) as [Hp_at Hf_at].
  assert (decide_status dt (fst (run_stages dt pre (advance dt s) ∅))
            (snd (run_stages dt pre (advance dt s) ∅)) d
          = decide_status dt (advance dt s) ∅ d) as Hdec.
  { apply decide_independent; try assumption.
    - apply run_stages_fmt.
    - rewrite Hp_at. exact Hind. }
  rewrite Hdec in H1, H2. split; [exact H1 |].
  rewrite H2. f_equal. f_equal. unfold acc_of. rewrite H3. reflexivity.
Qed.

Lemma tick_ok (dt : Ftime.t) (s : scheduler) (plan : list (list desc)) :
  compile (pipe s) = Ok plan ->
  tick dt s = Ok (run_stages dt plan (advance dt s) ∅).
Proof. intros Hc. unfold tick. rewrite Hc. reflexivity. Qed.

(** With an acyclic pipeline every run of ticks goes through. *)
Lemma run_ticks_ok (plan : list (list desc)) :
  forall (dts : list Ftime.t) (s : scheduler),
  compile (pipe s) = Ok plan ->
  exists s' sts, run_ticks dts s = Ok (s', sts).
Proof.
  induction dts as [| dt dts IH]; intros s Hc.
  - exists s, []. reflexivity.
  - pose proof (tick_ok dt s plan Hc) as Ht.
    destruct (run_stages dt plan (advance dt s) ∅) as [s1 st1] eqn:Hrun.
    destruct (tick_static dt s s1 st1 Ht) as [Hp _].
    destruct (IH s1) as (s2 & sts & Hr); [rewrite Hp; exact Hc |].
    exists s2, (st1 :: sts). simpl. rewrite Ht, Hr. reflexivity.
Qed.

(** An entity with a status was part of the plan. *)
Lemma status_in_plan (dt : Ftime.t) (plan : list (list desc)) (s : scheduler) (e : Z)
  (x : status) :
  snd (run_stages dt plan s ∅) !! e = Some x ->
  exists t, In t (concat plan) /\ entity t = e.
Proof.
  intros H.
  destruct (in_dec Z.eq_dec e (map entity (concat plan))) as [Hin | Hn].
  - apply in_map_iff in Hin. destruct Hin as (t & Et & Ht). exists t. split; assumption.
  - destruct (run_stages_notin dt plan s ∅ e Hn) as [H1 _].
    rewrite H1, lookup_empty in H. discriminate H.
Qed.

(** The counter of a system advances by one on a tick on which it ran. *)
Lemma tick_counts (dt : Ftime.t) (s s' : scheduler) (st : gmap Z status) (e : Z) :
  tick dt s = Ok (s', st) -> st !! e = Some Ran ->
  ticks s' !! e = Some (default 0 (ticks s !! e) + 1).
Proof.
  intros Ht Hran. unfold tick in Ht.
  destruct (compile (pipe s)) as [plan | err] eqn:Hc; [| discriminate].
  inversion Ht as [Hrun]. clear Ht.
  assert (snd (run_stages dt plan (advance dt s) ∅) !! e = Some Ran) as Hran'.
  { rewrite Hrun. exact Hran. }
  destruct (status_in_plan dt plan (advance dt s) e Ran Hran') as (t & Hin & <-).
  destruct (in_concat_split plan t Hin) as (pre & stage & post & Hsplit & Hts).
  pose proof (plan_nodup (pipe s) plan Hc) as Hnodup. rewrite Hsplit in Hnodup.
  rewrite Hsplit in Hran'.
  pose proof (run_stages_ticks_at dt pre post stage (advance dt s) ∅ t Hnodup Hts Hran')
    as Hticks.
  rewrite <- Hsplit, Hrun in Hticks. exact Hticks.
Qed.

(** The tick of a rated system without interval and without dependency
    whose tick source is the pipeline's counter or one of its
    predecessors.  The system is gated against the source count reached
    at the end of the tick: it is dispatched when that count is a
    multiple of the rate at which it has not run yet, and that count is
    remembered when it ran. *)
Lemma tick_rated (dt : Ftime.t) (s s' : scheduler) (st : gmap Z status)
  (plan : list (list desc)) (d : desc) :
  compile (pipe s) = Ok plan ->
  List.NoDup (map entity (systems (pipe s))) ->
  In d (systems (pipe s)) ->
  no_dependency (pipe s) d = true ->
  has_interval d = false ->
  0 < rate d ->
  tick_source d = 0 \/ edge (pipe s) (tick_source d) (entity d) = true ->
  tick dt s = Ok (s', st) ->
  let go := (source_count s' (tick_source d) mod rate d =? 0)
            && negb (source_count s' (tick_source d) =? last_of s d) in
  st !! entity d
  = Some (if go
          then if run d (mk_iter (entity d) dt (frame s + 1)) then Ran else Failed
          else Skipped)
  /\ (last_of s' d = last_of s d \/ last_of s' d = source_count s' (tick_source d)).
Proof.
  intros Hc Hnd Hd Hdep Hi Hr Hsrc Ht go.
  rewrite (tick_ok dt s plan Hc) in Ht. inversion Ht as [Hrun]. clear Ht.
  pose proof (plan_keeps (pipe s) plan d Hnd Hc Hd) as Hin.
  destruct (in_concat_split plan d Hin) as (pre & stage & post & Hsplit & Hds).
  pose proof (plan_nodup (pipe s) plan Hc) as Hnodup.
  destruct (plan_sorted (pipe s) plan Hc) as [Hsorted Hapart].
  rewrite Hsplit in Hnodup, Hsorted, Hapart.
  destruct (run_stages_at dt pre post stage (advance dt s) ∅ d Hnodup Hds) as (H1 & _ & _).
  destruct (run_stages_rated_at dt pre post stage (advance dt s) ∅ d Hnodup Hds)
    as (H2 & H3).
  rewrite <- Hsplit, Hrun in H1, H2. simpl in H1, H2.
  destruct (run_stages_static dt pre (advance dt s) ∅) as [Hp_at Hf_at].
  destruct (run_stages_static dt plan (advance dt s) ∅) as [_ Hf_end].
  rewrite Hrun in Hf_end. simpl in Hf_end.
  set (s_at := fst (run_stages dt pre (advance dt s) ∅)) in *.
  set (done_at := snd (run_stages dt pre (advance dt s) ∅)) in *.
  assert (source_count s_at (tick_source d) = source_count s' (tick_source d)) as Hcount.
  { unfold source_count. rewrite Hf_at, Hf_end.
    destruct Hsrc as [H0 | Hedge]; [rewrite H0; reflexivity |].
    assert (~ In (tick_source d) (map entity (concat (stage :: post)))) as Hn.
    { intros Hx. apply in_map_iff in Hx. destruct Hx as (x & Ex & Hx). revert Hx.
      apply (predecessor_not_later (pipe s) pre post stage d x Hsorted); [| exact Hds |].
      - apply Forall_app in Hapart. destruct Hapart as [_ Hapart].
        apply Forall_cons in Hapart. apply Hapart.
      - rewrite Ex. exact Hedge. }
    pose proof (run_stages_app dt pre (stage :: post) (advance dt s) ∅) as Happ.
    rewrite <- Hsplit, Hrun in Happ. fold s_at done_at in Happ.
    pose proof (run_stages_ticks_notin dt (stage :: post) s_at done_at (tick_source d) Hn)
      as Hticks.
    rewrite <- Happ in Hticks. simpl in Hticks. rewrite Hticks. reflexivity. }
  assert (decide_status dt s_at done_at d
          = if go
            then if run d (mk_iter (entity d) dt (frame s + 1)) then Ran else Failed
            else Skipped) as Hdec.
  { unfold decide_status.
    rewrite (deps_ok_no_dependency s_at done_at d) by (rewrite Hp_at; exact Hdep).
    unfold interval_ok. rewrite Hi. simpl. rewrite andb_true_r.
    unfold rate_ok. assert ((rate d <=? 0) = false) as -> by (apply Z.leb_gt; exact Hr).
    simpl. rewrite Hf_at, Hcount.
    assert (last_of s_at d = last_of s d) as ->.
    { unfold last_of. rewrite H3. reflexivity. }
    reflexivity. }
  split.
  - rewrite H1, Hdec. reflexivity.
  - unfold last_of at 1 3. rewrite H2, Hdec, Hcount.
    change (rated_at (advance dt s) !! entity d) with (rated_at s !! entity d).
    destruct go; [destruct (run d _) |]; simpl; auto.
Qed.

End TickFacts.

(** * The scheduling properties *)
Module SchedulerFacts.
Import Desc Store Core PlannerFacts ExecFacts TickFacts AgreeFacts ContractFacts.

Lemma forallb_false_witness {A : Type} (f : A -> bool) (l : list A) (x : A) :
  In x l -> f x = false -> forallb f l = false.
Proof.
  intros Hx Hf. destruct (forallb f l) eqn:E; [| reflexivity].
  rewrite forallb_forall in E. rewrite (E x Hx) in Hf. discriminate.
Qed.

Lemma blocked_dependency_skips (dt : Ftime.t) (s : scheduler) (done : gmap Z status)
  (a b : desc) :
  In a (systems (pipe s)) ->
  has_id (world (pipe s)) (entity b) (EcsDependsOn, entity a) = true ->
  blocked (done !! entity a) = true ->
  decide_status dt s done b = Skipped.
Proof.
  intros Ha Hdep Hbl. unfold decide_status.
  assert (deps_ok s done b = false) as ->.
  { unfold deps_ok. apply (forallb_false_witness _ _ a Ha).
    rewrite Hdep, Hbl. reflexivity. }
  rewrite andb_false_r. reflexivity.
Qed.

(** C3: when [a] declares [after(b)] and [b] declares [after(a)], plan
    compilation fails with [CyclicDependency], the error names both
    systems, no plan (complete or partial) is produced, and every tick is
    refused with the same error for as long as the two edges stand. *)
Theorem mutual_after_is_cyclic (s : scheduler) (a b : desc) (dt : Ftime.t) :
  In a (systems (pipe s)) ->
  In b (systems (pipe s)) ->
  has_id (world (pipe s)) (entity a) (EcsAfter, entity b) = true ->
  has_id (world (pipe s)) (entity b) (EcsAfter, entity a) = true ->
  compile (pipe s) = Err (CyclicDependency (cycle_participants (pipe s)))
  /\ In (entity a) (cycle_participants (pipe s))
  /\ In (entity b) (cycle_participants (pipe s))
  /\ tick dt s = Err (CyclicDependency (cycle_participants (pipe s))).
Proof.
  intros Ha Hb Hab Hba.
  apply edge_of_after in Hab, Hba.
  assert (compile (pipe s) = Err (CyclicDependency (cycle_participants (pipe s)))) as Hc.
  { unfold compile. rewrite (mutual_edges_stuck (pipe s) a b Ha Hb Hba Hab). reflexivity. }
  split; [exact Hc |]. split; [| split].
  - apply on_cycle_participant; [exact Ha |].
    apply (mutual_edges_on_cycle (pipe s) a b); assumption.
  - apply on_cycle_participant; [exact Hb |].
    apply (mutual_edges_on_cycle (pipe s) b a); assumption.
  - unfold tick. rewrite Hc. reflexivity.
Qed.

(** C4: on every tick, if [b] carries [depends_on(a)] and [a] ends the
    tick [Skipped] or [Failed], then [b] is [Skipped] on that tick,
    whatever the interval and rate of [b] would allow. *)
Theorem depends_on_propagates_skip (dt : Ftime.t) (s s' : scheduler) (st : gmap Z status)
  (a b : desc) :
  tick dt s = Ok (s', st) ->
  In a (systems (pipe s)) ->
  In b (systems (pipe s)) ->
  has_id (world (pipe s)) (entity b) (EcsDependsOn, entity a) = true ->
  st !! entity a = Some Skipped \/ st !! entity a = Some Failed ->
  st !! entity b = Some Skipped.
Proof.
  intros Ht Ha Hb Hdep Hst.
  unfold tick in Ht. destruct (compile (pipe s)) as [plan | e] eqn:Hc; [| discriminate].
  inversion Ht as [Hrun]. clear Ht.
  destruct (plan_covers (pipe s) plan b Hc Hb) as (b' & Hb' & Eb).
  destruct (in_concat_split plan b' Hb') as (pre & stage & post & Hsplit & Hbs).
  pose proof (plan_nodup (pipe s) plan Hc) as Hnodup.
  destruct (plan_sorted (pipe s) plan Hc) as [Hsorted Hapart].
  rewrite Hsplit in Hnodup, Hsorted, Hapart.
  destruct (run_stages_at dt pre post stage (advance dt s) ∅ b' Hnodup Hbs) as (H1 & _ & _).
  rewrite <- Hsplit, Hrun in H1. simpl in H1. rewrite Eb in H1. rewrite H1. f_equal.
  destruct (run_stages_static dt pre (advance dt s) ∅) as [Hp_at _].
  apply (blocked_dependency_skips dt _ _ a b').
  - rewrite Hp_at. exact Ha.
  - rewrite Hp_at, Eb. exact Hdep.
  - assert (~ In (entity a) (map entity (concat (stage :: post)))) as Hn.
    { intros Hin. apply in_map_iff in Hin. destruct Hin as (x & Ex & Hx). revert Hx.
      apply (predecessor_not_later (pipe s) pre post stage b' x Hsorted); [| exact Hbs |].
      - apply Forall_app in Hapart. destruct Hapart as [_ Hapart].
        apply Forall_cons in Hapart. apply Hapart.
      - rewrite Ex, Eb. apply edge_of_depends_on. exact Hdep. }
    pose proof (run_stages_app dt pre (stage :: post) (advance dt s) ∅) as Happ.
    rewrite <- Hsplit, Hrun in Happ.
    destruct (run_stages_notin dt (stage :: post)
                (fst (run_stages dt pre (advance dt s) ∅))
                (snd (run_stages dt pre (advance dt s) ∅)) (entity a) Hn) as [Hsame _].
    rewrite <- Happ in Hsame. simpl in Hsame. rewrite <- Hsame.
    destruct Hst as [-> | ->]; reflexivity.
Qed.

Lemma steady_source_tail (dt : Ftime.t) (dts : list Ftime.t) (s s1 : scheduler)
  (st1 : gmap Z status) (d : desc) :
  tick dt s = Ok (s1, st1) ->
  steady_source s (dt :: dts) d -> steady_source s1 dts d.
Proof.
  intros Ht [H0 | [Hedge Hall]]; [left; exact H0 | right].
  destruct (tick_static dt s s1 st1 Ht) as [Hp _]. rewrite Hp.
  split; [exact Hedge |]. intros s' sts Hrun.
  assert (run_ticks (dt :: dts) s = Ok (s', st1 :: sts)) as Hfull.
  { simpl. rewrite Ht, Hrun. reflexivity. }
  specialize (Hall _ _ Hfull). apply Forall_cons in Hall. apply Hall.
Qed.

(** On a tick of a run with a steady source, the counter of the source
    advances by one. *)
Lemma steady_source_head (dt : Ftime.t) (dts : list Ftime.t) (s s1 : scheduler)
  (st1 : gmap Z status) (plan : list (list desc)) (d : desc) :
  compile (pipe s) = Ok plan ->
  tick dt s = Ok (s1, st1) ->
  steady_source s (dt :: dts) d ->
  source_count s1 (tick_source d) = source_count s (tick_source d) + 1.
Proof.
  intros Hc Ht Hsteady.
  destruct (tick_static dt s s1 st1 Ht) as [Hp Hf].
  unfold source_count.
  destruct (Z.eqb_spec (tick_source d) 0) as [E | N]; [exact Hf |].
  destruct Hsteady as [H0 | [_ Hall]]; [contradiction |].
  destruct (run_ticks_ok plan dts s1) as (s2 & sts & Hrun); [rewrite Hp; exact Hc |].
  assert (run_ticks (dt :: dts) s = Ok (s2, st1 :: sts)) as Hfull.
  { simpl. rewrite Ht, Hrun. reflexivity. }
  specialize (Hall _ _ Hfull). apply Forall_cons in Hall. destruct Hall as [Hran _].
  rewrite (tick_counts dt s s1 st1 (tick_source d) Ht Hran). reflexivity.
Qed.

(** A rated system that reads a steady source and has not run at a count
    the source is still to reach: the tick on which the source count
    reaches [c] dispatches it when [c] is a multiple of the rate, and
    skips it otherwise. *)
Lemma rate_trace (d : desc) (r : Z) :
  has_interval d = false -> rate d = r -> 0 < r ->
  forall (dts : list Ftime.t) (s : scheduler) (plan : list (list desc)),
  compile (pipe s) = Ok plan ->
  List.NoDup (map entity (systems (pipe s))) ->
  In d (systems (pipe s)) ->
  no_dependency (pipe s) d = true ->
  steady_source s dts d ->
  last_of s d <= source_count s (tick_source d) ->
  exists s' sts,
    run_ticks dts s = Ok (s', sts)
    /\ length sts = length dts
    /\ forall (k : nat) (st : gmap Z status), sts !! k = Some st ->
       if (source_count s (tick_source d) + Z.of_nat k + 1) mod r =? 0
       then dispatched (st !! entity d)
       else st !! entity d = Some Skipped.
Proof.
  intros Hi Hr Hpos.
  induction dts as [| dt dts IH]; intros s plan Hc Hnd Hd Hdep Hsteady Hlast.
  - exists s, []. split; [reflexivity |]. split; [reflexivity |].
    intros k st Hk. destruct k; discriminate.
  - pose proof (tick_ok dt s plan Hc) as Ht.
    destruct (run_stages dt plan (advance dt s) ∅) as [s1 st1] eqn:Hrun1.
    destruct (tick_static dt s s1 st1 Ht) as [Hp Hf].
    pose proof (steady_source_head dt dts s s1 st1 plan d Hc Ht Hsteady) as Hcount.
    assert (tick_source d = 0 \/ edge (pipe s) (tick_source d) (entity d) = true) as Hsrc.
    { destruct Hsteady as [H0 | [He _]]; [left | right]; assumption. }
    destruct (tick_rated dt s s1 st1 plan d Hc Hnd Hd Hdep Hi
                ltac:(rewrite Hr; exact Hpos) Hsrc Ht) as [Hst Hlast1].
    rewrite Hcount, Hr in Hst.
    assert ((source_count s (tick_source d) + 1 =? last_of s d) = false) as Hfresh
      by (apply Z.eqb_neq; lia).
    rewrite Hfresh, andb_true_r in Hst.
    destruct (IH s1 plan) as (s2 & sts & Hrun & Hlen & Hall);
      try (rewrite Hp; assumption).
    { apply (steady_source_tail dt dts s s1 st1 d Ht Hsteady). }
    { lia. }
    exists s2, (st1 :: sts). split; [| split].
    + simpl. rewrite Ht, Hrun. reflexivity.
    + simpl. rewrite Hlen. reflexivity.
    + intros k st Hk. destruct k as [| k].
      * simpl in Hk. inversion Hk; subst st. rewrite Hst.
        simpl Z.of_nat. rewrite Z.add_0_r.
        destruct ((source_count s (tick_source d) + 1) mod r =? 0); [| reflexivity].
        destruct (run d _); [left | right]; reflexivity.
      * simpl in Hk. specialize (Hall k st Hk). rewrite Hcount in Hall.
        replace (source_count s (tick_source d) + Z.of_nat (S k) + 1)
          with (source_count s (tick_source d) + 1 + Z.of_nat k + 1) by lia.
        exact Hall.
Qed.


(** Gating of an independent, unrated system with an interval: the
    accumulated time alone. *)
Lemma decide_timed (dt : Ftime.t) (s : scheduler) (done : gmap Z status) (d : desc) :
  independent (pipe s) d = true -> has_interval d = true -> rate d = 0 ->
  decide_status dt s done d
  = if Ftime.leb (interval d) (Ftime.add (fmt s) (acc_of s d) dt)
    then if run d (mk_iter (entity d) dt (frame s)) then Ran else Failed
    else Skipped.
Proof.
  intros Hind Hi Hr. unfold decide_status.
  rewrite (deps_ok_free s done d Hind), (rate_ok_free s d Hind).
  unfold interval_ok. rewrite Hi, Hr. simpl. rewrite !andb_true_r. reflexivity.
Qed.

(** One tick of such a system: the elapsed time is added to the
    accumulator, and the interval is taken off when the system ran. *)
Lemma timed_tick (dt : Ftime.t) (s : scheduler) (plan : list (list desc)) (d : desc) :
  compile (pipe s) = Ok plan ->
  List.NoDup (map entity (systems (pipe s))) ->
  In d (systems (pipe s)) ->
  independent (pipe s) d = true ->
  has_interval d = true -> rate d = 0 ->
  exists s' st,
    tick dt s = Ok (s', st)
    /\ pipe s' = pipe s
    /\ frame s' = frame s + 1
    /\ fmt s' = fmt s
    /\ st !! entity d
       = Some (if Ftime.leb (interval d) (Ftime.add (fmt s) (acc_of s d) dt)
               then if run d (mk_iter (entity d) dt (frame s + 1)) then Ran else Failed
               else Skipped)
    /\ acc_of s' d
       = match st !! entity d with
         | Some Ran => Ftime.sub (fmt s) (Ftime.add (fmt s) (acc_of s d) dt) (interval d)
         | _ => Ftime.add (fmt s) (acc_of s d) dt
         end.
Proof.
  intros Hc Hnd Hd Hind Hi Hr.
  destruct (tick_independent dt s plan d Hc Hnd Hd Hind)
    as (s' & st & Ht & Hp & Hf & Hm & Hst & Hacc).
  exists s', st. split; [exact Ht |]. split; [exact Hp |]. split; [exact Hf |].
  split; [exact Hm |].
  rewrite (decide_timed dt (advance dt s) ∅ d Hind Hi Hr) in Hst, Hacc.
  change (acc_of (advance dt s) d) with (acc_of s d) in Hst, Hacc.
  change (frame (advance dt s)) with (frame s + 1) in Hst, Hacc.
  change (fmt (advance dt s)) with (fmt s) in Hst, Hacc.
  split; [exact Hst |].
  unfold acc_of at 1. rewrite Hacc, Hst. simpl. unfold settle. rewrite Hi.
  destruct (Ftime.leb _ _); [destruct (run d _) |]; reflexivity.
Qed.

(** C6 (amended): durations are binary floating-point numbers.  For an
    independent, unrated system with an interval, every tick adds the
    delta time to the accumulator, skips the system while the
    accumulated time is below the interval, and on a run takes the
    interval off the accumulator instead of zeroing it.  With [interval =
    1.0], the accumulator at zero and delta times 0.4, 0.4, 0.4, in
    single and in double precision, the system is [Skipped] on the first
    two ticks and runs on the third (its callback succeeding there);
    after that run its accumulator is [((0.4 + 0.4) + 0.4) - 1.0] in
    rounded arithmetic: positive, within a millionth of 0.2, and
    different from the float 0.2. *)
Theorem interval_carries_remainder (s : scheduler) (plan : list (list desc))
  (d : desc) :
  compile (pipe s) = Ok plan ->
  List.NoDup (map entity (systems (pipe s))) ->
  In d (systems (pipe s)) ->
  independent (pipe s) d = true ->
  has_interval d = true ->
  rate d = 0 ->
  (forall dt : Ftime.t, exists s1 st1,
     tick dt s = Ok (s1, st1)
     /\ (st1 !! entity d = Some Skipped
         <-> Ftime.leb (interval d) (Ftime.add (fmt s) (acc_of s d) dt) = false)
     /\ (st1 !! entity d = Some Ran ->
         acc_of s1 d
         = Ftime.sub (fmt s) (Ftime.add (fmt s) (acc_of s d) dt) (interval d))
     /\ (st1 !! entity d <> Some Ran ->
         acc_of s1 d = Ftime.add (fmt s) (acc_of s d) dt))
  /\ (fmt s = Ftime.binary32 \/ fmt s = Ftime.binary64 ->
      interval d = Ftime.of_Z (fmt s) 1 ->
      acc_of s d = Ftime.zero ->
      run d (mk_iter (entity d) (Ftime.decimal (fmt s) 4 10) (frame s + 3)) = true ->
      exists s' st1 st2 st3,
        run_ticks [Ftime.decimal (fmt s) 4 10; Ftime.decimal (fmt s) 4 10;
                   Ftime.decimal (fmt s) 4 10] s
        = Ok (s', [st1; st2; st3])
        /\ st1 !! entity d = Some Skipped
        /\ st2 !! entity d = Some Skipped
        /\ st3 !! entity d = Some Ran
        /\ acc_of s' d
           = Ftime.sub (fmt s)
               (Ftime.add (fmt s)
                  (Ftime.add (fmt s)
                     (Ftime.add (fmt s) Ftime.zero (Ftime.decimal (fmt s) 4 10))
                     (Ftime.decimal (fmt s) 4 10))
                  (Ftime.decimal (fmt s) 4 10))
               (Ftime.of_Z (fmt s) 1)
        /\ Ftime.ltb Ftime.zero (acc_of s' d) = true
        /\ Ftime.ltb (Ftime.dist (fmt s) (acc_of s' d) (Ftime.decimal (fmt s) 2 10))
                     (Ftime.decimal (fmt s) 1 1000000) = true
        /\ acc_of s' d <> Ftime.decimal (fmt s) 2 10).
Proof.
  intros Hc Hnd Hd Hind Hi Hr. split.
  - intros dt.
    destruct (timed_tick dt s plan d Hc Hnd Hd Hind Hi Hr)
      as (s1 & st1 & Ht & _ & _ & _ & Hst & Hacc).
    exists s1, st1. split; [exact Ht |]. split; [| split].
    + rewrite Hst. destruct (Ftime.leb _ _); [destruct (run d _) |];
        split; intros H; try reflexivity; discriminate H.
    + intros Hran. rewrite Hacc, Hran. reflexivity.
    + intros Hnot. rewrite Hacc.
      destruct (st1 !! entity d) as [[| |] |]; try reflexivity.
      exfalso. apply Hnot. reflexivity.
  - intros Hfmt Hint Hzero Hrun.
    set (dt := Ftime.decimal (fmt s) 4 10) in *.
    destruct (timed_tick dt s plan d Hc Hnd Hd Hind Hi Hr)
      as (s1 & st1 & Ht1 & Hp1 & Hf1 & Hm1 & Hst1 & Ha1).
    rewrite <- Hp1 in Hc, Hnd, Hd, Hind.
    destruct (timed_tick dt s1 plan d Hc Hnd Hd Hind Hi Hr)
      as (s2 & st2 & Ht2 & Hp2 & Hf2 & Hm2 & Hst2 & Ha2).
    rewrite <- Hp2 in Hc, Hnd, Hd, Hind.
    destruct (timed_tick dt s2 plan d Hc Hnd Hd Hind Hi Hr)
      as (s3 & st3 & Ht3 & Hp3 & Hf3 & Hm3 & Hst3 & Ha3).
    rewrite Hm2, Hm1 in Hst3, Ha3. rewrite Hm1 in Hst2, Ha2.
    replace (frame s2 + 1) with (frame s + 3) in Hst3 by lia.
    fold dt in Hrun. rewrite Hrun in Hst3.
    rewrite Hzero, Hint in Hst1. rewrite Hzero in Ha1.
    assert (st1 !! entity d = Some Skipped
            /\ acc_of s1 d = Ftime.add (fmt s) Ftime.zero dt) as [Hs1 Hv1].
    { rewrite Ha1, Hst1. unfold dt.
      destruct Hfmt as [-> | ->]; vm_compute; split; reflexivity. }
    rewrite Hv1, Hint in Hst2. rewrite Hv1 in Ha2.
    assert (st2 !! entity d = Some Skipped
            /\ acc_of s2 d = Ftime.add (fmt s) (Ftime.add (fmt s) Ftime.zero dt) dt)
      as [Hs2 Hv2].
    { rewrite Ha2, Hst2. unfold dt.
      destruct Hfmt as [-> | ->]; vm_compute; split; reflexivity. }
    rewrite Hv2, Hint in Hst3. rewrite Hv2, Hint in Ha3.
    assert (st3 !! entity d = Some Ran) as Hs3.
    { rewrite Hst3. unfold dt.
      destruct Hfmt as [-> | ->]; vm_compute; reflexivity. }
    rewrite Hs3 in Ha3.
    exists s3, st1, st2, st3.
    split; [simpl; rewrite Ht1, Ht2, Ht3; reflexivity |].
    split; [exact Hs1 |]. split; [exact Hs2 |]. split; [exact Hs3 |].
    split; [exact Ha3 |].
    rewrite Ha3. unfold dt.
    destruct Hfmt as [-> | ->]; (split; [| split]);
      try (vm_compute; reflexivity); vm_compute; discriminate.
Qed.

(** C7: plan compilation is deterministic.  Two pipelines with the same
    descriptors in the same registration order, the same edges and the
    same phase ordering compile to the same stage partition.  That
    partition meets the planner's contract: each system placed is, of
    all the registered systems whose predecessors are placed, one that
    was registered first, every registered system is placed, the stages
    are conflict-free and every stage boundary is needed.  With distinct
    identities it is the only stage sequence of registered systems that
    meets the contract, so breaking ties by registration order leaves no
    choice to the order in which a planner visits the systems. *)
Theorem planning_is_deterministic (p1 p2 : pipeline) (plan : list (list desc)) :
  agree p1 p2 ->
  List.NoDup (map entity (systems p1)) ->
  compile p1 = Ok plan ->
  compile p2 = Ok plan
  /\ by_registration p1 (concat plan) = true
  /\ maximal_stages p1 plan = true
  /\ forall plan' : list (list desc),
       Forall (fun d => In d (systems p2)) (concat plan') ->
       by_registration p2 (concat plan') = true ->
       maximal_stages p2 plan' = true ->
       plan' = plan.
Proof.
  intros Hag Hnd Hc.
  assert (compile p2 = Ok plan) as Hc2.
  { rewrite <- (compile_agree p1 p2 Hag). exact Hc. }
  split; [exact Hc2 |].
  destruct (compile_meets_contract p1 plan Hc) as [Hby Hmax].
  split; [exact Hby |]. split; [exact Hmax |].
  intros plan' Hreg Hby' Hmax'.
  apply (contract_fixes_plan p2 plan plan'); try assumption.
  destruct Hag as (Hs & _ & _). rewrite <- Hs. exact Hnd.
Qed.

End SchedulerFacts.

(** * The properties on the sample configurations *)
Module Scenarios.
Import Desc Store Core Samples.
Import Builder (system_builder_i, m_desc, world_v, after, before, depends_on).

Ltac distinct_entities :=
  simpl; repeat (constructor; [simpl; intuition discriminate |]); constructor.

(** The builder of system 1 declaring [before(2)] and the builder of
    system 2 declaring [after(1)] leave the same world. *)
Lemma before_is_after_on_target_holds :
  world_v (before 2 (builder_for 1 ∅)) = world_v (after 1 (builder_for 2 ∅))
  /\ world_v (before 2 (builder_for 1 ∅)) = add_id ∅ 2 (EcsAfter, 1).
Proof.
  destruct (BuilderFacts.before_is_after_on_target (builder_for 1 ∅) (builder_for 2 ∅))
    as (H1 & H2 & _); [reflexivity | discriminate | discriminate |].
  split; [exact H1 | exact H2].
Defined.

(** With the null handle as the builder's own entity the two calls differ:
    [before(2)] still adds "after 0" to entity 2, [after(0)] adds nothing. *)
Remark before_from_null_entity :
  has_id (world_v (before 2 (builder_for 0 ∅))) 2 (EcsAfter, 0) = true
  /\ world_v (after 0 (builder_for 2 ∅)) = ∅.
Proof. split; [vm_compute; reflexivity | reflexivity]. Qed.

(** The builder of system 1 accepts [after(1)], [before(1)] and
    [depends_on(1)]: each call changes the world. *)
Lemma self_edge_is_not_rejected :
  after 1 (builder_for 1 ∅) <> builder_for 1 ∅
  /\ before 1 (builder_for 1 ∅) <> builder_for 1 ∅
  /\ depends_on 1 (builder_for 1 ∅) <> builder_for 1 ∅.
Proof.
  repeat split; intros H.
  - apply (f_equal (fun b : @Builder.system_builder_i Store.api => has_id (world_v b) 1 (EcsAfter, 1))) in H.
    vm_compute in H. discriminate H.
  - apply (f_equal (fun b : @Builder.system_builder_i Store.api => has_id (world_v b) 1 (EcsAfter, 1))) in H.
    vm_compute in H. discriminate H.
  - apply (f_equal (fun b : @Builder.system_builder_i Store.api => has_id (world_v b) 1 (EcsDependsOn, 1))) in H.
    vm_compute in H. discriminate H.
Qed.

Lemma self_edge_is_declared_holds :
  m_desc (after 1 (builder_for 1 ∅)) = blank 1
  /\ world_v (after 1 (builder_for 1 ∅)) = add_id ∅ 1 (EcsAfter, 1).
Proof.
  destruct (BuilderFacts.self_edge_is_declared (builder_for 1 ∅)) as (H & _);
    [discriminate |].
  exact H.
Defined.

Lemma mutual_after_is_cyclic_holds :
  compile (pipe cyclic) = Err (CyclicDependency (cycle_participants (pipe cyclic)))
  /\ In 1 (cycle_participants (pipe cyclic))
  /\ In 2 (cycle_participants (pipe cyclic))
  /\ tick dt04 cyclic = Err (CyclicDependency (cycle_participants (pipe cyclic))).
Proof.
  apply (SchedulerFacts.mutual_after_is_cyclic cyclic (blank 1) (blank 2) dt04).
  - left. reflexivity.
  - right. left. reflexivity.
  - vm_compute. reflexivity.
  - vm_compute. reflexivity.
Defined.

Lemma depends_on_propagates_skip_holds :
  snd first_tick !! 1 = Some Skipped /\ snd first_tick !! 2 = Some Skipped.
Proof.
  assert (snd first_tick !! 1 = Some Skipped) as H1 by (vm_compute; reflexivity).
  split; [exact H1 |].
  apply (SchedulerFacts.depends_on_propagates_skip dt04 demo (fst first_tick)
           (snd first_tick) (m_desc timed) (m_desc follower)).
  - vm_compute. reflexivity.
  - left. reflexivity.
  - right. left. reflexivity.
  - vm_compute. reflexivity.
  - left. exact H1.
Defined.



(** The same with a system as tick source: system 5 declares [after(4)]
    and follows the counter of system 4, which runs on every tick. *)
Example rate_three_on_system_source :
  exists s' sts,
    run_ticks [dt04; dt04; dt04; dt04; dt04; dt04] relay = Ok (s', sts)
    /\ length sts = 6%nat
    /\ forall (k : nat) (st : gmap Z status), sts !! k = Some st ->
       if (Z.of_nat k + 1) mod 3 =? 0
       then dispatched (st !! 5)
       else st !! 5 = Some Skipped.
Proof.
  apply (SchedulerFacts.rate_trace (m_desc relayed) 3 eq_refl eq_refl eq_refl
           [dt04; dt04; dt04; dt04; dt04; dt04] relay relay_plan).
  - vm_compute. reflexivity.
  - distinct_entities.
  - left. reflexivity.
  - vm_compute. reflexivity.
  - right. split; [vm_compute; reflexivity |].
    intros s' sts H. vm_compute in H. inversion H; subst.
    repeat (constructor; [vm_compute; reflexivity |]). constructor.
  - vm_compute. discriminate.
Qed.

(** In single and in double precision the system with interval 1.0 runs
    on the third tick of delta 0.4, and the accumulator it is left with
    is not the float 0.2: it is 13421776 / 2^26 where 0.2 is 13421773 /
    2^26, and 7205759403792800 / 2^55 where 0.2 is 7205759403792794 /
    2^55. *)
Lemma interval_remainder_is_rounded :
  (run_ticks [dt04; dt04; dt04] demo = Ok three_ticks
   /\ map (fun st : gmap Z status => st !! 1) (snd three_ticks)
      = [Some Skipped; Some Skipped; Some Ran]
   /\ acc_of (fst three_ticks) (m_desc timed) = S754_finite false 13421776 (-26)
   /\ Ftime.decimal Ftime.binary32 2 10 = S754_finite false 13421773 (-26)
   /\ acc_of (fst three_ticks) (m_desc timed) <> Ftime.decimal Ftime.binary32 2 10)
  /\ (run_ticks [dt04_64; dt04_64; dt04_64] demo64 = Ok three_ticks64
      /\ map (fun st : gmap Z status => st !! 1) (snd three_ticks64)
         = [Some Skipped; Some Skipped; Some Ran]
      /\ acc_of (fst three_ticks64) (m_desc timed64)
         = S754_finite false 7205759403792800 (-55)
      /\ Ftime.decimal Ftime.binary64 2 10 = S754_finite false 7205759403792794 (-55)
      /\ acc_of (fst three_ticks64) (m_desc timed64) <> Ftime.decimal Ftime.binary64 2 10).
Proof.
  split; (split; [| split; [| split; [| split]]]);
    try (vm_compute; reflexivity); vm_compute; discriminate.
Qed.

Lemma interval_carries_remainder_holds :
  exists s' st1 st2 st3,
    run_ticks [dt04; dt04; dt04] demo = Ok (s', [st1; st2; st3])
    /\ st1 !! 1 = Some Skipped
    /\ st2 !! 1 = Some Skipped
    /\ st3 !! 1 = Some Ran
    /\ acc_of s' (m_desc timed)
       = Ftime.sub Ftime.binary32
           (Ftime.add Ftime.binary32
              (Ftime.add Ftime.binary32 (Ftime.add Ftime.binary32 Ftime.zero dt04) dt04)
              dt04)
           (Ftime.of_Z Ftime.binary32 1)
    /\ Ftime.ltb Ftime.zero (acc_of s' (m_desc timed)) = true
    /\ Ftime.ltb (Ftime.dist Ftime.binary32 (acc_of s' (m_desc timed))
                    (Ftime.decimal Ftime.binary32 2 10))
                 (Ftime.decimal Ftime.binary32 1 1000000) = true
    /\ acc_of s' (m_desc timed) <> Ftime.decimal Ftime.binary32 2 10.
Proof.
  destruct (SchedulerFacts.interval_carries_remainder demo demo_plan (m_desc timed))
    as [_ H].
  - vm_compute. reflexivity.
  - distinct_entities.
  - left. reflexivity.
  - vm_compute. reflexivity.
  - vm_compute. reflexivity.
  - reflexivity.
  - apply H.
    + left. reflexivity.
    + reflexivity.
    + reflexivity.
    + reflexivity.
Defined.

(** The plan of [demo], written out: system 1 first, then systems 2 and
    3, which share a stage. *)
Lemma planning_is_deterministic_holds :
  compile (pipe demo_later) = Ok [[m_desc timed]; [m_desc follower; m_desc rated]]
  /\ by_registration (pipe demo) [m_desc timed; m_desc follower; m_desc rated] = true
  /\ maximal_stages (pipe demo) [[m_desc timed]; [m_desc follower; m_desc rated]] = true
  /\ forall plan' : list (list desc),
       Forall (fun d => In d (systems (pipe demo_later))) (concat plan') ->
       by_registration (pipe demo_later) (concat plan') = true ->
       maximal_stages (pipe demo_later) plan' = true ->
       plan' = [[m_desc timed]; [m_desc follower; m_desc rated]].
Proof.
  apply (SchedulerFacts.planning_is_deterministic (pipe demo) (pipe demo_later)
           [[m_desc timed]; [m_desc follower; m_desc rated]]).
  - split; [reflexivity |]. split; [reflexivity |]. intros a b. reflexivity.
  - distinct_entities.
  - vm_compute. reflexivity.
Defined.

(** Orders and stage sequences of [demo] that the contract refuses:
    system 3 placed before system 1 although system 1 was registered
    first and is as free to go, and a boundary between systems 2 and 3
    that nothing calls for. *)
Remark other_plans_are_refused :
  by_registration (pipe demo) [m_desc rated; m_desc timed; m_desc follower] = false
  /\ by_registration (pipe demo) [m_desc timed; m_desc rated; m_desc follower] = false
  /\ maximal_stages (pipe demo) [[m_desc timed]; [m_desc follower]; [m_desc rated]]
     = false.
Proof. split; [| split]; vm_compute; reflexivity. Qed.

End Scenarios.

(** * Properties of chains of builder calls *)
Module CallFacts.
Import Builder Calls.
Import Desc (desc_field(..)).

Section WithApi.
Context `{Api : FlecsApi}.
Variable type_t : Type.
Variable cpp_type_id : type_t -> world_t -> world_t * entity_t.

Abbreviation call := (Calls.call type_t).
Abbreviation apply_call := (Calls.apply_call type_t cpp_type_id).
Abbreviation run_calls := (Calls.run_calls type_t cpp_type_id).

Ltac step_call :=
  cbn [Calls.apply_call];
  unfold depends_on_type, after_type, before_type,
    depends_on, after, before, multi_threaded, no_readonly, interval,
    rate_of, rate, tick_source, ctx, run, with_desc, with_world;
  simpl;
  repeat match goal with
         | |- context [if ?x =? 0 then _ else _] => destruct (x =? 0); simpl
         end.

(** *** One call *)

Lemma apply_call_get (c : call) (f : desc_field) (b : system_builder_i) :
  Desc.desc_get f (m_desc (apply_call c b))
  = default (Desc.desc_get f (m_desc b)) (writes_to type_t c f).
Proof. destruct c, f; step_call; reflexivity. Qed.

Lemma apply_call_entity (c : call) (b : system_builder_i) :
  Desc.entity (m_desc (apply_call c b)) = Desc.entity (m_desc b).
Proof. apply (apply_call_get c F_entity b). Qed.

Lemma edge_keeps_desc (c : call) (b : system_builder_i) :
  is_edge type_t c = true -> m_desc (apply_call c b) = m_desc b.
Proof. destruct c; try discriminate; intros _; step_call; reflexivity. Qed.

Lemma setter_keeps_world (c : call) (b : system_builder_i) :
  is_edge type_t c = false -> world_v (apply_call c b) = world_v b.
Proof. destruct c; try discriminate; intros _; reflexivity. Qed.

Lemma setter_reads_desc (c : call) (b b' : system_builder_i) :
  is_edge type_t c = false -> m_desc b' = m_desc b ->
  m_desc (apply_call c b') = m_desc (apply_call c b).
Proof.
  destruct c; try discriminate; intros _ E; step_call; rewrite E; reflexivity.
Qed.

Lemma edge_reads_world_and_entity (c : call) (b b' : system_builder_i) :
  is_edge type_t c = true ->
  world_v b' = world_v b ->
  Desc.entity (m_desc b') = Desc.entity (m_desc b) ->
  world_v (apply_call c b') = world_v (apply_call c b).
Proof.
  destruct c; try discriminate; intros _ Ew Ee;
    cbn [Calls.apply_call];
    unfold depends_on_type, after_type, before_type,
      depends_on, after, before, with_world; simpl; rewrite Ew, Ee;
    repeat match goal with
           | |- context [if ?x =? 0 then _ else _] => destruct (x =? 0); simpl
           end; first [reflexivity | assumption].
Qed.

Lemma run_calls_cons (c : call) (cs : list call) (b : system_builder_i) :
  run_calls (c :: cs) b = run_calls cs (apply_call c b).
Proof. reflexivity. Qed.

Lemma run_calls_app (cs1 cs2 : list call) (b : system_builder_i) :
  run_calls (cs1 ++ cs2) b = run_calls cs2 (run_calls cs1 b).
Proof. unfold Calls.run_calls. apply fold_left_app. Qed.

(** *** Whole chains *)

(** X2: after any chain of calls, each descriptor field holds the value
    of the last call that stores into it, and its initial value when no
    call of the chain does. *)
Theorem last_write_wins (f : desc_field) (cs : list call) (b : system_builder_i) :
  Desc.desc_get f (m_desc (run_calls cs b))
  = default (Desc.desc_get f (m_desc b)) (last_write type_t f cs).
Proof.
  revert b. induction cs as [| c cs IH]; intros b; [reflexivity |].
  rewrite run_calls_cons, IH, apply_call_get. simpl.
  destruct (last_write type_t f cs); reflexivity.
Qed.

Lemma last_write_untouched (f : desc_field) (cs : list call) :
  (forall c, writes_to type_t c f = None) -> last_write type_t f cs = None.
Proof.
  intros H. induction cs as [| c cs IH]; [reflexivity |].
  simpl. rewrite IH. apply H.
Qed.

(** X1: no chain of builder calls changes the entity of the descriptor,
    its query, or any field the builder does not name. *)
Theorem calls_keep_identity (cs : list call) (b : system_builder_i) :
  Desc.entity (m_desc (run_calls cs b)) = Desc.entity (m_desc b)
  /\ Desc.query (m_desc (run_calls cs b)) = Desc.query (m_desc b)
  /\ Desc.other_fields (m_desc (run_calls cs b)) = Desc.other_fields (m_desc b).
Proof.
  pose proof (last_write_wins F_entity cs b) as He.
  pose proof (last_write_wins F_query cs b) as Hq.
  pose proof (last_write_wins F_other cs b) as Ho.
  rewrite last_write_untouched in He by reflexivity.
  rewrite last_write_untouched in Hq by reflexivity.
  rewrite last_write_untouched in Ho by reflexivity.
  repeat split; assumption.
Qed.

(** X3: the descriptor a chain leaves does not depend on the world nor on
    the edge declarations of the chain: dropping them, and starting from
    any builder with the same descriptor, gives the same descriptor. *)
Theorem descriptor_ignores_edges (cs : list call) (b b' : system_builder_i) :
  m_desc b' = m_desc b ->
  m_desc (run_calls cs b)
  = m_desc (run_calls (List.filter (fun c => negb (is_edge type_t c)) cs) b').
Proof.
  revert b b'. induction cs as [| c cs IH]; intros b b' E.
  - simpl. symmetry. exact E.
  - rewrite run_calls_cons. simpl List.filter.
    destruct (is_edge type_t c) eqn:Hc; simpl negb; cbv iota.
    + apply IH. rewrite E. symmetry. apply edge_keeps_desc. exact Hc.
    + rewrite run_calls_cons. apply IH. apply setter_reads_desc; assumption.
Qed.

(** X4: the world a chain leaves depends only on the initial world, on
    the builder's entity and on the edge declarations of the chain: the
    setters can be dropped, and the other descriptor fields are not
    looked at. *)
Theorem world_ignores_setters (cs : list call) (b b' : system_builder_i) :
  world_v b' = world_v b ->
  Desc.entity (m_desc b') = Desc.entity (m_desc b) ->
  world_v (run_calls cs b)
  = world_v (run_calls (List.filter (is_edge type_t) cs) b').
Proof.
  revert b b'. induction cs as [| c cs IH]; intros b b' Ew Ee.
  - simpl. symmetry. exact Ew.
  - rewrite run_calls_cons. simpl List.filter.
    destruct (is_edge type_t c) eqn:Hc.
    + rewrite run_calls_cons. apply IH.
      * apply edge_reads_world_and_entity; assumption.
      * rewrite !apply_call_entity. exact Ee.
    + apply IH.
      * rewrite Ew. symmetry. apply setter_keeps_world. exact Hc.
      * rewrite apply_call_entity. exact Ee.
Qed.

Lemma add_all_app (w : world_t) (rs1 rs2 : list (Z * ecs_id_t)) :
  add_all (add_all w rs1) rs2 = add_all w (rs1 ++ rs2).
Proof. unfold add_all. symmetry. apply fold_left_app. Qed.

Lemma apply_call_request (c : call) (b : system_builder_i) :
  is_typed type_t c = false ->
  world_v (apply_call c b)
  = add_all (world_v b) (request type_t (Desc.entity (m_desc b)) c).
Proof.
  destruct c; try discriminate; intros _; cbn [Calls.apply_call Calls.request];
    unfold depends_on, after, before, with_world;
    try reflexivity;
    destruct (other =? 0); reflexivity.
Qed.

(** X5: a chain without typed calls changes the world by exactly the
    [ecs_add_id] requests of its edge declarations, in call order: one
    per non-null [depends_on] and [after] on the builder's own entity,
    one per non-null [before] on the entity passed, and none for setters
    and null handles. *)
Theorem world_is_edge_requests (cs : list call) (b : system_builder_i) :
  forallb (fun c => negb (is_typed type_t c)) cs = true ->
  world_v (run_calls cs b)
  = add_all (world_v b) (requests type_t (Desc.entity (m_desc b)) cs).
Proof.
  revert b. induction cs as [| c cs IH]; intros b H; [reflexivity |].
  simpl in H. apply andb_true_iff in H. destruct H as [Hc H].
  apply negb_true_iff in Hc.
  rewrite run_calls_cons, (IH _ H), apply_call_entity, (apply_call_request c b Hc).
  unfold requests. simpl flat_map. apply add_all_app.
Qed.

Lemma separate_swap (c1 c2 : call) (b : system_builder_i) :
  separate type_t c1 c2 = true ->
  apply_call c2 (apply_call c1 b) = apply_call c1 (apply_call c2 b).
Proof.
  destruct c1, c2; intros H; try discriminate H; clear H;
    cbn [Calls.apply_call];
    unfold depends_on_type, after_type, before_type,
      depends_on, after, before, multi_threaded, no_readonly, interval,
      rate_of, rate, tick_source, ctx, run, with_desc, with_world;
    simpl;
    repeat match goal with
           | |- context [if ?x =? 0 then _ else _] => destruct (x =? 0); simpl
           end;
    reflexivity.
Qed.

(** X6: two adjacent calls of a chain can be exchanged when they are
    separate, that is when they store into no common descriptor field and
    at most one of them declares an edge; the builder the chain leaves is
    the same. *)
Theorem separate_calls_commute (pre post : list call) (c1 c2 : call)
  (b : system_builder_i) :
  separate type_t c1 c2 = true ->
  run_calls (pre ++ c1 :: c2 :: post) b = run_calls (pre ++ c2 :: c1 :: post) b.
Proof.
  intros H. rewrite !run_calls_app, !run_calls_cons.
  rewrite (separate_swap c1 c2 _ H). reflexivity.
Qed.

Lemma null_edge_noop (c : call) (b : system_builder_i) :
  is_null_edge type_t c = true -> apply_call c b = b.
Proof.
  destruct c; try discriminate; simpl; intros H; apply Z.eqb_eq in H; subst other;
    reflexivity.
Qed.

(** X8: edge declarations that pass the null handle can be struck from a
    chain wherever they stand: the builder the chain leaves, descriptor
    and world, is the same without them. *)
Theorem null_edges_are_erasable (cs : list call) (b : system_builder_i) :
  run_calls cs b
  = run_calls (List.filter (fun c => negb (is_null_edge type_t c)) cs) b.
Proof.
  revert b. induction cs as [| c cs IH]; intros b; [reflexivity |].
  rewrite run_calls_cons. simpl List.filter.
  destruct (is_null_edge type_t c) eqn:Hc; simpl negb; cbv iota.
  - rewrite (null_edge_noop c b Hc). apply IH.
  - rewrite run_calls_cons. apply IH.
Qed.

(** X7: the two-argument [rate] is the one-argument [rate] and
    [tick_source] in either order; a later [rate(r)] keeps the tick
    source given before and only replaces the rate, and a later
    [tick_source] keeps the rate. *)
Theorem rate_overloads_compose (b : system_builder_i) (src src' r r' : Z) :
  rate_of src r b = tick_source src (rate r b)
  /\ rate_of src r b = rate r (tick_source src b)
  /\ rate r' (rate_of src r b) = rate_of src r' b
  /\ tick_source src' (rate_of src r b) = rate_of src' r b
  /\ rate_of src' r' (rate_of src r b) = rate_of src' r' b.
Proof. repeat split; reflexivity. Qed.

End WithApi.
End CallFacts.

(** * The chain properties on the sample chains *)
Module CallScenarios.
Import Store Calls CallSamples.

Lemma descriptor_ignores_edges_holds :
  Builder.m_desc (run_calls nat numbered mixed_chain (Samples.builder_for 1 ∅))
  = Builder.m_desc
      (run_calls nat numbered
         (List.filter (fun c => negb (is_edge nat c)) mixed_chain) busy_builder).
Proof.
  apply (CallFacts.descriptor_ignores_edges nat numbered mixed_chain
           (Samples.builder_for 1 ∅) busy_builder).
  reflexivity.
Defined.

Lemma world_ignores_setters_holds :
  Builder.world_v (run_calls nat numbered mixed_chain (Samples.builder_for 1 ∅))
  = Builder.world_v
      (run_calls nat numbered (List.filter (is_edge nat) mixed_chain) tuned_builder).
Proof.
  apply (CallFacts.world_ignores_setters nat numbered mixed_chain
           (Samples.builder_for 1 ∅) tuned_builder).
  - reflexivity.
  - reflexivity.
Defined.

Lemma world_is_edge_requests_holds :
  Builder.world_v (run_calls nat numbered entity_chain busy_builder)
  = add_all (add_id ∅ 5 (EcsAfter, 6))
      [(1, (EcsAfter, 7)); (8, (EcsAfter, 1)); (1, (EcsDependsOn, 2))].
Proof.
  apply (CallFacts.world_is_edge_requests nat numbered entity_chain busy_builder).
  reflexivity.
Defined.

Lemma separate_calls_commute_holds :
  run_calls nat numbered ([Rate nat 3] ++ timing :: ordering :: [Rate nat 5])
    busy_builder
  = run_calls nat numbered ([Rate nat 3] ++ ordering :: timing :: [Rate nat 5])
      busy_builder.
Proof.
  apply (CallFacts.separate_calls_commute nat numbered [Rate nat 3] [Rate nat 5]
           timing ordering busy_builder).
  reflexivity.
Defined.

End CallScenarios.
